(** * list-regions.py: the region-index traversal

    A shallow embedding of [src/list-regions.py] (functions [walk] and
    [main]) and the properties of the flattening it performs.

    The document handed to [main] is whatever [json.load] produced, so
    the data model is the whole of JSON as Python sees it: [None],
    [bool], [int], [float], [str], [list] and [dict].  [walk] prints
    one line per region that has a truthy ["path"] and may raise
    ([AttributeError] when a node has no [.get], [TypeError] when the
    ["subregions"] value cannot be iterated); both effects are kept:
    a computation yields the lines printed so far and an outcome.

    Python recursion is general recursion, hence the [fuel] argument of
    [walk]: it bounds the depth of the recursion, as the recursion
    limit of the interpreter does, and a walk that needs more ends
    with [OutOfFuel].  The termination results show that this never
    happens on a finite tree once the fuel exceeds its height.
    Failures of [print] itself are not modelled.

    The first part works on JSON values, which are finite trees by
    construction; this is where the results on depth, order and
    completeness are proved.  The second part ([Store]) runs the same
    program over a store of mutable, possibly shared or cyclic
    objects, to show that the walk leaves the document untouched, and
    a refinement lemma connects the two. *)

From Stdlib Require Import String Ascii List ZArith Bool Arith Lia.
From Stdlib Require Import Floats.PrimFloat.
From Stdlib Require Import Sorting.Sorted.
Import ListNotations.
Local Open Scope string_scope.
Local Open Scope list_scope.


(** ** Python values produced by [json.load] *)

(** A [dict] is kept as its list of items, in insertion order (Python
    dicts are ordered, and iterating one yields its keys in that
    order).  The keys of a Python dict are pairwise distinct; when a
    list of items repeats a key, lookups see the first occurrence. *)
#[warnings="-register-all"]
Inductive json : Type :=
| JNull
| JBool (b : bool)
| JInt (z : Z)
| JFloat (f : float)
| JStr (s : string)
| JList (items : list json)
| JObj (fields : list (string * json)).

(** Python truthiness ([if path:], [if not data:]). *)
Definition truthy (v : json) : bool :=
  match v with
  | JNull => false
  | JBool b => b
  | JInt z => negb (Z.eqb z 0)
  | JFloat f => negb (PrimFloat.eqb f PrimFloat.zero)
  | JStr s => negb (String.eqb s "")
  | JList items => match items with [] => false | _ :: _ => true end
  | JObj fields => match fields with [] => false | _ :: _ => true end
  end.

(** [d[key]] on the items of a dict. *)
Fixpoint dict_get {V} (fields : list (string * V)) (key : string) : option V :=
  match fields with
  | [] => None
  | (k, v) :: rest => if String.eqb k key then Some v else dict_get rest key
  end.

(** ** Effects: printed lines, exceptions, fuel *)

Inductive exn : Type :=
| AttributeError
| TypeError
| RuntimeError.

Inductive outcome (A : Type) : Type :=
| Ok (a : A)
| Raise (e : exn)
| OutOfFuel.

Arguments Ok {A} a.
Arguments Raise {A} e.
Arguments OutOfFuel {A}.

(** A computation: the lines it printed to stdout, one per call of
    [print], and how it ended. *)
Definition M (A : Type) : Type := (list string * outcome A)%type.

Definition ret {A} (a : A) : M A := ([], Ok a).

Definition bind {A B} (m : M A) (k : A -> M B) : M B :=
  match m with
  | (out, Ok a) => let (out', r) := k a in (out ++ out', r)
  | (out, Raise e) => (out, Raise e)
  | (out, OutOfFuel) => (out, OutOfFuel)
  end.

Definition raise {A} (e : exn) : M A := ([], Raise e).
Definition out_of_fuel {A} : M A := ([], OutOfFuel).
Definition print (line : string) : M unit := ([line], Ok tt).

Declare Scope io_scope.
Notation "x <- m ;; k" := (bind m (fun x => k))
  (at level 61, m at next level, right associativity) : io_scope.
Notation "m ;;; k" := (bind m (fun _ => k))
  (at level 61, right associativity) : io_scope.
Local Open Scope io_scope.

(** [for x in items: body(x)] over an already materialised sequence. *)
Fixpoint for_each {A} (items : list A) (body : A -> M unit) : M unit :=
  match items with
  | [] => ret tt
  | x :: rest => body x ;;; for_each rest body
  end.

(** ** The Python operations [walk] uses *)

(** [obj.get(key, default)]: only a dict has [.get]. *)
Definition py_get (obj : json) (key : string) (default : json) : M json :=
  match obj with
  | JObj fields =>
      match dict_get fields key with
      | Some v => ret v
      | None => ret default
      end
  | _ => raise AttributeError
  end.

(** The characters of a [str], each as a one-character [str]. *)
Fixpoint chars (s : string) : list json :=
  match s with
  | EmptyString => []
  | String c rest => JStr (String c EmptyString) :: chars rest
  end.

(** [iter(v)]: what a [for] loop over [v] visits.  A list yields its
    elements, a dict its keys, a str its characters; [None], booleans
    and numbers are not iterable. *)
Definition py_iter (v : json) : M (list json) :=
  match v with
  | JList items => ret items
  | JObj fields => ret (map (fun kv => JStr (fst kv)) fields)
  | JStr s => ret (chars s)
  | _ => raise TypeError
  end.

(** ["  " * indent] *)
Fixpoint indentation (indent : nat) : string :=
  match indent with
  | O => ""
  | S n => "  " ++ indentation n
  end.

(** [str(v)], the text an f-string substitutes for [{v}].  It is a
    Python builtin, not code of the repository: all that is used of it
    is that the text of a [str] is the [str] itself. *)
Class Formatter : Type := {
  py_str : json -> string;
  py_str_JStr : forall s, py_str (JStr s) = s
}.

Section Program.

Context {fmt : Formatter}.

(** ["  " * indent + f"- {path}"] *)
Definition line (indent : nat) (path : json) : string :=
  indentation indent ++ "- " ++ py_str path.

(** [[
def walk(region: dict, indent: int = 0) -> None:
    path = region.get("path")
    if path:
        print("  " * indent + f"- {path}")
    for sub in region.get("subregions", []):
        walk(sub, indent + 1)
]] *)
Fixpoint walk (fuel : nat) (region : json) (indent : nat) : M unit :=
  match fuel with
  | O => out_of_fuel
  | S fuel' =>
      path <- py_get region "path" JNull ;;
      (if truthy path then print (line indent path) else ret tt) ;;;
      subs <- py_get region "subregions" (JList []) ;;
      items <- py_iter subs ;;
      for_each items (fun sub => walk fuel' sub (indent + 1))
  end.

(** [[
def main() -> int:
    data = fetch_index()
    if not data:
        return 1
    for region in data.get("subregions", []):
        walk(region)
    return 0
]]
    [fetch_index] is the network collaborator: [data] is what it
    returned, the parsed document or [None] ([JNull]) after a failure
    (it has then already reported the error on stderr). *)
Definition main (fuel : nat) (data : json) : M Z :=
  if negb (truthy data) then ret 1%Z
  else
    regions <- py_get data "subregions" (JList []) ;;
    items <- py_iter regions ;;
    for_each items (fun region => walk fuel region 0) ;;;
    ret 0%Z.

End Program.

(** ** The region tree inside a document *)

(** The children the loop of [walk] visits when the ["subregions"]
    value is a list (none when the key is absent). *)
Definition subregions_of (t : json) : list json :=
  match t with
  | JObj fields =>
      match dict_get fields "subregions" with
      | Some (JList items) => items
      | _ => []
      end
  | _ => []
  end.

(** The path of a node: present, and a non-empty string. *)
Definition own_path (t : json) : option string :=
  match t with
  | JObj fields =>
      match dict_get fields "path" with
      | Some (JStr s) => if String.eqb s "" then None else Some s
      | _ => None
      end
  | _ => None
  end.

(** A node is addressed by the child indices leading to it. *)
Definition position : Type := list nat.

Fixpoint node_at (t : json) (pos : position) : option json :=
  match pos with
  | [] => Some t
  | i :: rest =>
      match nth_error (subregions_of t) i with
      | Some c => node_at c rest
      | None => None
      end
  end.


Definition path_at (t : json) (pos : position) : option string :=
  match node_at t pos with
  | Some n => own_path n
  | None => None
  end.

(** Nesting depth of a value: the fuel a traversal can need. *)
Fixpoint height (t : json) : nat :=
  match t with
  | JList items => S (list_max (map height items))
  | JObj fields => S (list_max (map (fun kv => height (snd kv)) fields))
  | _ => 0
  end.

(** A bound on the steps of a traversal that also counts the
    iterations of its loops: above the nesting depth and above the
    length of every list, dict, key and string inside (a dict counts
    for two, so that the bound also covers the default [[]] of a
    missing key). *)
Fixpoint span (t : json) : nat :=
  match t with
  | JStr s => String.length s
  | JList items => S (Nat.max (length items) (list_max (map span items)))
  | JObj fields =>
      S (S (Nat.max (length fields)
              (list_max (map (fun kv => Nat.max (String.length (fst kv)) (span (snd kv)))
                             fields))))
  | _ => 0
  end.

(** A region as section 3 of the specification describes it: a dict
    whose ["path"], when present, is a string and whose ["subregions"],
    when present, is a list of regions. *)
Definition path_field_ok (o : option json) : Prop :=
  match o with
  | None | Some (JStr _) => True
  | Some _ => False
  end.

Definition subregions_field_ok (o : option json) : Prop :=
  match o with
  | None | Some (JList _) => True
  | Some _ => False
  end.

Inductive wf_region : json -> Prop :=
| wf_region_node fields :
    path_field_ok (dict_get fields "path") ->
    subregions_field_ok (dict_get fields "subregions") ->
    (forall c, In c (subregions_of (JObj fields)) -> wf_region c) ->
    wf_region (JObj fields).



(** What [walk] prints for the node itself, whatever its ["path"]
    holds. *)
Definition own_output {fmt : Formatter} (fields : list (string * json))
    (indent : nat) : list string :=
  match dict_get fields "path" with
  | Some p => if truthy p then [line indent p] else []
  | None => []
  end.

(** A record of the flattening and its rendering as a line. *)
Definition record : Type := (nat * string)%type.

Definition render (r : record) : string :=
  indentation (fst r) ++ "- " ++ snd r.

(** Document order on positions: a node comes before its descendants,
    and the subtree of an earlier sibling before that of a later one. *)
Inductive pos_lt : position -> position -> Prop :=
| pos_lt_nil i q : pos_lt [] (i :: q)
| pos_lt_head i j p q : i < j -> pos_lt (i :: p) (j :: q)
| pos_lt_tail i p q : pos_lt p q -> pos_lt (i :: p) (i :: q).

(** [a] occurs before [b] in [l]. *)
Definition precedes {A} (a b : A) (l : list A) : Prop :=
  exists l1 l2 l3, l = l1 ++ a :: l2 ++ b :: l3.

(** [ps] lists, in document order and without omission, the positions
    of the nodes of [t] that have a path; [recs] are their records when
    [t] itself is visited at depth [base]. *)
Definition flattens (t : json) (base : nat)
    (ps : list position) (recs : list record) : Prop :=
  Forall2 (fun pos r => path_at t pos = Some (snd r) /\
                        fst r = base + length pos) ps recs /\
  StronglySorted pos_lt ps /\
  (forall pos, In pos ps <-> path_at t pos <> None).

(** The line of the node itself, if it has a path. *)
Definition own_lines (t : json) (indent : nat) : list string :=
  match own_path t with
  | Some s => [render (indent, s)]
  | None => []
  end.

(** A formatter to run the program with: exact on [str], [None] and
    [bool]; the text of the other values is outside the model and is
    left empty here. *)
Definition plain_str (v : json) : string :=
  match v with
  | JStr s => s
  | JNull => "None"
  | JBool true => "True"
  | JBool false => "False"
  | _ => ""
  end.

#[export] Instance plain_formatter : Formatter :=
  {| py_str := plain_str; py_str_JStr := fun s => eq_refl |}.

(** The trees of scenarios B, C and D of the specification. *)
Definition albania : json :=
  JObj [("path", JStr "europe/albania"); ("subregions", JList [])].
Definition europe : json :=
  JObj [("path", JStr "europe"); ("subregions", JList [albania])].
Definition scenario_b : json := JObj [("subregions", JList [europe])].
Definition scenario_c : json :=
  JObj [("subregions", JList [JObj [("path", JStr "a")]; JObj [("path", JStr "b")]])].
Definition scenario_d : json :=
  JObj [("path", JStr "asia");
        ("subregions",
         JList [JObj [("path", JStr "asia/japan");
                      ("subregions", JList [JObj [("path", JStr "asia/japan/kanto")]])]])].

(** ** The same program over a store of mutable objects

    Python lists and dicts are mutable objects reached through
    references, and a [for] loop reads its list again at every step.
    This second embedding of [walk] keeps that: values hold references
    into a store, every operation is a transition of the store and of
    stdout, and whether [walk] changes the document becomes a
    property to prove rather than a consequence of the data type. *)
Module Store.

Definition loc : Type := nat.

(** [None], booleans, numbers and strings are immutable and held by
    value; a list or dict is a reference.  [VFreshList] is the value
    of the display [[]] in [region.get("subregions", [])]: an empty
    list created by the running frame, which holds its only reference
    and never stores it. *)
Inductive value : Type :=
| VNone
| VBool (b : bool)
| VInt (z : Z)
| VFloat (f : float)
| VStr (s : string)
| VRef (l : loc)
| VFreshList.

Inductive object : Type :=
| OList (items : list value)
| ODict (fields : list (string * value)).

Record world : Type := World {
  objects : loc -> object;
  stdout : list string
}.

Definition M (A : Type) : Type := world -> world * outcome A.

Definition ret {A} (a : A) : M A := fun w => (w, Ok a).

Definition bind {A B} (m : M A) (k : A -> M B) : M B :=
  fun w =>
    match m w with
    | (w', Ok a) => k a w'
    | (w', Raise e) => (w', Raise e)
    | (w', OutOfFuel) => (w', OutOfFuel)
    end.

Definition raise {A} (e : exn) : M A := fun w => (w, Raise e).
Definition out_of_fuel {A} : M A := fun w => (w, OutOfFuel).

Definition print (line : string) : M unit :=
  fun w => (World (objects w) (stdout w ++ [line]), Ok tt).

Definition read (l : loc) : M object := fun w => (w, Ok (objects w l)).

(** The two mutating operations of lists and dicts, [l.append(v)] and
    [d[key] = v] on a new key.  [walk] calls neither. *)
Definition write (l : loc) (o : object) : M unit :=
  fun w => (World (fun l' => if Nat.eqb l' l then o else objects w l') (stdout w),
            Ok tt).

Definition list_append (l : loc) (v : value) : M unit :=
  bind (read l) (fun o =>
    match o with
    | OList items => write l (OList (items ++ [v]))
    | ODict _ => raise AttributeError
    end).

Declare Scope store_scope.
Notation "x <- m ;; k" := (bind m (fun x => k))
  (at level 61, m at next level, right associativity) : store_scope.
Notation "m ;;; k" := (bind m (fun _ => k))
  (at level 61, right associativity) : store_scope.
Local Open Scope store_scope.

Definition truthy (v : value) : M bool :=
  match v with
  | VNone => ret false
  | VBool b => ret b
  | VInt z => ret (negb (Z.eqb z 0))
  | VFloat f => ret (negb (PrimFloat.eqb f PrimFloat.zero))
  | VStr s => ret (negb (String.eqb s ""))
  | VRef l =>
      o <- read l ;;
      ret match o with
          | OList [] | ODict [] => false
          | _ => true
          end
  | VFreshList => ret false
  end.

Definition py_get (obj : value) (key : string) (default : value) : M value :=
  match obj with
  | VRef l =>
      o <- read l ;;
      match o with
      | ODict fields =>
          match dict_get fields key with
          | Some v => ret v
          | None => ret default
          end
      | OList _ => raise AttributeError
      end
  | _ => raise AttributeError
  end.

(** An iterator remembers the object it runs over and how far it got;
    the object itself is read again at every step. *)
Inductive iterator : Type :=
| IList (l : loc) (i : nat)
| IKeys (l : loc) (i : nat) (size : nat)
| IChars (s : string) (i : nat)
| IEmpty.

Definition py_iter (v : value) : M iterator :=
  match v with
  | VRef l =>
      o <- read l ;;
      ret match o with
          | OList _ => IList l 0
          | ODict fields => IKeys l 0 (length fields)
          end
  | VStr s => ret (IChars s 0)
  | VFreshList => ret IEmpty
  | _ => raise TypeError
  end.

(** [next(it)]: the next item and the advanced iterator, or [None] at
    the end.  A dict iterator refuses to go on once the dict has
    changed size. *)
Definition py_next (it : iterator) : M (option (value * iterator)) :=
  match it with
  | IList l i =>
      o <- read l ;;
      ret match o with
          | OList items =>
              match nth_error items i with
              | Some v => Some (v, IList l (S i))
              | None => None
              end
          | ODict _ => None
          end
  | IKeys l i size =>
      o <- read l ;;
      match o with
      | ODict fields =>
          if Nat.eqb (length fields) size then
            ret match nth_error fields i with
                | Some (k, _) => Some (VStr k, IKeys l (S i) size)
                | None => None
                end
          else raise RuntimeError
      | OList _ => ret None
      end
  | IChars s i =>
      ret match String.get i s with
          | Some c => Some (VStr (String c EmptyString), IChars s (S i))
          | None => None
          end
  | IEmpty => ret None
  end.

(** [for x in it: body(x)]; each step takes one unit of fuel, since
    nothing here says the list stops growing. *)
Fixpoint for_loop (fuel : nat) (it : iterator) (body : value -> M unit) : M unit :=
  match fuel with
  | O => out_of_fuel
  | S fuel' =>
      x <- py_next it ;;
      match x with
      | None => ret tt
      | Some (v, it') => body v ;;; for_loop fuel' it' body
      end
  end.

(** [str(v)] may read the store (the text of a list shows its
    items). *)
Class Formatter : Type := {
  py_str : (loc -> object) -> value -> string;
  py_str_VStr : forall h s, py_str h (VStr s) = s
}.

Section Program.

Context {fmt : Formatter}.

Definition format (indent : nat) (path : value) : M string :=
  fun w => (w, Ok (indentation indent ++ "- " ++ py_str (objects w) path)%string).

Fixpoint walk (fuel : nat) (region : value) (indent : nat) : M unit :=
  match fuel with
  | O => out_of_fuel
  | S fuel' =>
      path <- py_get region "path" VNone ;;
      nonempty <- truthy path ;;
      (if nonempty then text <- format indent path ;; print text else ret tt) ;;;
      subs <- py_get region "subregions" VFreshList ;;
      it <- py_iter subs ;;
      for_loop fuel' it (fun sub => walk fuel' sub (indent + 1))
  end.

End Program.

(** Reads the store, appends to stdout, and does nothing else: the
    store is left as it was, and neither the printed lines nor the
    outcome depend on what stdout already held. *)
Definition read_only {A} (m : M A) : Prop :=
  forall h, exists lines r,
    forall out, m (World h out) = (World h (out ++ lines), r).

Definition plain_str (h : loc -> object) (v : value) : string :=
  match v with
  | VStr s => s
  | VNone => "None"
  | VBool true => "True"
  | VBool false => "False"
  | _ => ""
  end.

#[export] Instance plain_formatter : Formatter :=
  {| py_str := plain_str; py_str_VStr := fun _ _ => eq_refl |}.

(** The items an iterator has still to yield while the store is [h]. *)
Definition remaining (h : loc -> object) (it : iterator) : list value :=
  match it with
  | IList l i =>
      match h l with
      | OList items => skipn i items
      | ODict _ => []
      end
  | IKeys l i size =>
      match h l with
      | ODict fields => map (fun kv => VStr (fst kv)) (skipn i fields)
      | OList _ => []
      end
  | IChars s i => map (fun c => VStr (String c EmptyString)) (skipn i (list_ascii_of_string s))
  | IEmpty => []
  end.

(** The iterator after one more item. *)
Definition advance (it : iterator) : iterator :=
  match it with
  | IList l i => IList l (S i)
  | IKeys l i size => IKeys l (S i) size
  | IChars s i => IChars s (S i)
  | IEmpty => IEmpty
  end.

(** A dict iterator is in step with its dict. *)
Definition in_step (h : loc -> object) (it : iterator) : Prop :=
  match it with
  | IKeys l _ size =>
      match h l with
      | ODict fields => length fields = size
      | OList _ => True
      end
  | _ => True
  end.

(** The loop over a fixed list of items. *)
Fixpoint for_items (items : list value) (body : value -> M unit) : M unit :=
  match items with
  | [] => ret tt
  | v :: rest => body v ;;; for_items rest body
  end.

(** [represents h v t]: in the store [h] the value [v] is the root of
    a finite tree of objects, and that tree is the JSON value [t].
    Objects may be shared between branches; a cycle has no finite
    derivation. *)
#[warnings="-register-all"]
Inductive represents (h : loc -> object) : value -> json -> Prop :=
| rep_none : represents h VNone JNull
| rep_bool b : represents h (VBool b) (JBool b)
| rep_int z : represents h (VInt z) (JInt z)
| rep_float f : represents h (VFloat f) (JFloat f)
| rep_str s : represents h (VStr s) (JStr s)
| rep_fresh : represents h VFreshList (JList [])
| rep_list l vs ts :
    h l = OList vs ->
    Forall2 (represents h) vs ts ->
    represents h (VRef l) (JList ts)
| rep_dict l vfs tfs :
    h l = ODict vfs ->
    Forall2 (fun vf tf => fst vf = fst tf /\ represents h (snd vf) (snd tf)) vfs tfs ->
    represents h (VRef l) (JObj tfs).

(** A store with a cycle: the only region of dict 0 is dict 0. *)
Definition cyclic_store (l : loc) : object :=
  match l with
  | 0 => ODict [("subregions", VRef 1)]
  | _ => OList [VRef 0]
  end.

(** Scenario B laid out in a store: 0 is the root dict, 1 its list of
    regions, 2 europe, 3 europe's list, 4 albania, 5 albania's empty
    list. *)
Definition scenario_b_store (l : loc) : object :=
  match l with
  | 0 => ODict [("subregions", VRef 1)]
  | 1 => OList [VRef 2]
  | 2 => ODict [("path", VStr "europe"); ("subregions", VRef 3)]
  | 3 => OList [VRef 4]
  | 4 => ODict [("path", VStr "europe/albania"); ("subregions", VRef 5)]
  | _ => OList []
  end.

End Store.

(** A store computation does what a computation on JSON values does:
    it prints the same lines, ends the same way and leaves the store
    [h] as it was. *)
Definition refines (h : Store.loc -> Store.object)
    (m : Store.M unit) (p : M unit) : Prop :=
  forall out, m (Store.World h out) = (Store.World h (out ++ fst p), snd p).

(** ** The rest of the script: [fetch_index] and the entry point *)

(** What the body of the [try] in [fetch_index] came to: [json.load]
    returned a document, or [urlopen] or [json.load] raised an
    [Exception] whose text ([str(exc)]) is [message]. *)
Inductive fetched : Type :=
| Loaded (doc : json)
| Failed (message : string).

(** [[
def fetch_index() -> dict | None:
    try:
        with urllib.request.urlopen(INDEX_URL) as resp:
            return json.load(resp)
    except Exception as exc:
        print(f"Error fetching index: {exc}", file=sys.stderr)
        return None
]]
    The lines written to stderr, and the value returned. *)
Definition fetch_index (attempt : fetched) : list string * json :=
  match attempt with
  | Loaded doc => ([], doc)
  | Failed message => (["Error fetching index: " ++ message]%string, JNull)
  end.

(** One run of the script: what it wrote to stderr and to stdout, and
    how [main] ended. *)
Record run : Type := Run {
  run_stderr : list string;
  run_stdout : list string;
  run_result : outcome Z
}.

(** [main()] with its call of [fetch_index]. *)
Definition script {fmt : Formatter} (fuel : nat) (attempt : fetched) : run :=
  let (err, data) := fetch_index attempt in
  let (out, result) := main fuel data in
  Run err out result.

(** [sys.exit(main())]: the status of the process is the value [main]
    returned (it only returns 0 or 1); an exception that nothing
    catches ends the interpreter with status 1. *)
Definition exit_status (result : outcome Z) : Z :=
  match result with
  | Ok z => z
  | Raise _ | OutOfFuel => 1%Z
  end.

(** A store where one region is listed twice. *)
Definition shared_store (l : Store.loc) : Store.object :=
  match l with
  | 0 => Store.ODict [("subregions", Store.VRef 1)]
  | 1 => Store.OList [Store.VRef 2; Store.VRef 2]
  | 2 => Store.ODict [("path", Store.VStr "x")]
  | _ => Store.OList []
  end.

Definition shared_tree : json :=
  JObj [("subregions", JList [JObj [("path", JStr "x")]; JObj [("path", JStr "x")]])].

(** A region whose second child is not a dict. *)
Definition broken_fields : list (string * json) :=
  [("path", JStr "r");
   ("subregions", JList [JObj [("path", JStr "r/a")]; JInt 5; JObj [("path", JStr "r/b")]])].

(** A line that [walk] may print at depth [indent] or below it: the
    entry of some truthy path. *)
Definition entry_from {fmt : Formatter} (indent : nat) (text : string) : Prop :=
  exists d p, indent <= d /\ truthy p = true /\ text = line d p.

(** Two values that [walk] cannot tell apart: equal, or dicts with the
    same ["path"] and with ["subregions"] that are equal or are lists
    of values it cannot tell apart.  The other keys are free. *)
#[warnings="-register-all"]
Inductive same_listing : json -> json -> Prop :=
| same_value t : same_listing t t
| same_leaf fields fields' :
    dict_get fields "path" = dict_get fields' "path" ->
    dict_get fields "subregions" = dict_get fields' "subregions" ->
    same_listing (JObj fields) (JObj fields')
| same_node fields fields' items items' :
    dict_get fields "path" = dict_get fields' "path" ->
    dict_get fields "subregions" = Some (JList items) ->
    dict_get fields' "subregions" = Some (JList items') ->
    Forall2 same_listing items items' ->
    same_listing (JObj fields) (JObj fields').

(** An entry of the catalog as it is published, with keys [walk] does
    not read, and the same entry cut down to what it reads. *)
Definition malta_full : json :=
  JObj [("id", JStr "malta"); ("path", JStr "europe/malta");
        ("name", JStr "Malta"); ("urls", JObj [("pbf", JStr "malta-latest.osm.pbf")])].
Definition malta_bare : json := JObj [("path", JStr "europe/malta")].
Definition europe_full : json :=
  JObj [("name", JStr "Europe"); ("subregions", JList [malta_full]);
        ("path", JStr "europe")].
Definition europe_bare : json :=
  JObj [("path", JStr "europe"); ("subregions", JList [malta_bare])].

(** A region with two children, the first of which has a child of its
    own. *)
Definition two_branches : json :=
  JObj [("path", JStr "r");
        ("subregions",
         JList [JObj [("path", JStr "r/a");
                      ("subregions", JList [JObj [("path", JStr "r/a/1")]])];
                JObj [("path", JStr "r/b")]])].
(** * Properties *)

(** ** The scenarios of the specification, run *)

(** Scenario A: a root without regions. *)
Example scenario_a_output :
  main 0 (JObj [("subregions", JList [])]) = ([], Ok 0%Z).
Proof. reflexivity. Qed.

Example scenario_b_output :
  main 5 scenario_b = (["- europe"; "  - europe/albania"], Ok 0%Z).
Proof. reflexivity. Qed.

Example scenario_c_output :
  walk 5 scenario_c 0 = (["  - a"; "  - b"], Ok tt).
Proof. reflexivity. Qed.

Example scenario_d_output :
  walk 7 scenario_d 0 =
  (["- asia"; "  - asia/japan"; "    - asia/japan/kanto"], Ok tt).
Proof. reflexivity. Qed.

(** A [null] in place of the list of regions, and the empty document. *)
Example null_subregions_output :
  walk 5 (JObj [("path", JStr "x"); ("subregions", JNull)]) 0 =
  (["- x"], Raise TypeError).
Proof. reflexivity. Qed.

Example empty_document_output : main 5 (JObj []) = ([], Ok 1%Z).
Proof. reflexivity. Qed.

(** Both zeros of a float are falsy. *)
Example float_truthiness :
  truthy (JFloat 0%float) = false /\
  truthy (JFloat (-0)%float) = false /\
  truthy (JFloat 0.5%float) = true.
Proof. repeat split; reflexivity. Qed.

(** ** Basic facts about the effect layer *)

Lemma bind_ok {A B} (out : list string) (a : A) (k : A -> M B) :
  bind (out, Ok a) k = (out ++ fst (k a), snd (k a)).
Proof. unfold bind. destruct (k a); reflexivity. Qed.

Lemma bind_ret {A B} (a : A) (k : A -> M B) : bind (ret a) k = k a.
Proof. unfold ret, bind. destruct (k a); reflexivity. Qed.

(** A loop whose body always succeeds prints the outputs of its
    iterations one after the other. *)
Lemma for_each_ok {A} (items : list A) (body : A -> M unit) :
  (forall x, In x items -> snd (body x) = Ok tt) ->
  for_each items body = (List.concat (map (fun x => fst (body x)) items), Ok tt).
Proof.
  induction items as [|x items IH]; intros Hok; simpl.
  - reflexivity.
  - rewrite IH by (intros y Hy; apply Hok; now right).
    pose proof (Hok x (or_introl eq_refl)) as Hx.
    destruct (body x) as [out r]; simpl in *; subst r. reflexivity.
Qed.

(** ** Height *)

Lemma list_max_In (n : nat) (l : list nat) : In n l -> n <= list_max l.
Proof.
  induction l as [|m l IH]; simpl; [easy|].
  intros [->|H]; [lia|]. specialize (IH H). lia.
Qed.

Lemma height_item (c : json) (items : list json) :
  In c items -> height c < height (JList items).
Proof.
  intros H. simpl. apply Nat.lt_succ_r, list_max_In, in_map, H.
Qed.

Lemma height_field (fields : list (string * json)) (key : string) (v : json) :
  dict_get fields key = Some v -> height v < height (JObj fields).
Proof.
  intros H. simpl. apply Nat.lt_succ_r, list_max_In.
  induction fields as [|[k w] fields IH]; simpl in *; [discriminate|].
  destruct (String.eqb k key).
  - injection H as ->. now left.
  - right. now apply IH.
Qed.

Lemma height_subregion (t c : json) :
  In c (subregions_of t) -> S (height c) < height t.
Proof.
  destruct t as [| | | | | |fields]; simpl; try easy.
  destruct (dict_get fields "subregions") as [[| | | | |items|]|] eqn:E; try easy.
  intros H. apply height_field in E. apply height_item in H. simpl in *. lia.
Qed.

Lemma node_at_app (t : json) (p q : position) :
  node_at t (p ++ q) =
  match node_at t p with Some n => node_at n q | None => None end.
Proof.
  revert t. induction p as [|i p IH]; intros t; simpl; [reflexivity|].
  destruct (nth_error (subregions_of t) i); [apply IH|reflexivity].
Qed.


(** ** Document order *)

Lemma pos_lt_irrefl (p : position) : ~ pos_lt p p.
Proof.
  induction p as [|i p IH]; intros H; inversion H; subst; [lia|now apply IH].
Qed.

Lemma pos_lt_asym (p q : position) : pos_lt p q -> pos_lt q p -> False.
Proof.
  induction 1; intros H'; inversion H'; subst; try lia. now apply IHpos_lt.
Qed.

Lemma pos_lt_descendant (p : position) (i : nat) (r : position) :
  pos_lt p (p ++ i :: r).
Proof. induction p; simpl; now constructor. Qed.

Lemma pos_lt_siblings (q : position) (i j : nat) (r r' : position) :
  i < j -> pos_lt (q ++ i :: r) (q ++ j :: r').
Proof. intros H. induction q; simpl; now constructor. Qed.

Lemma sorted_app {A} (R : A -> A -> Prop) (l1 l2 : list A) :
  StronglySorted R l1 -> StronglySorted R l2 ->
  (forall a b, In a l1 -> In b l2 -> R a b) ->
  StronglySorted R (l1 ++ l2).
Proof.
  intros H1 H2 H. induction H1 as [|a l1 Hs IH Hall]; simpl; [exact H2|].
  constructor.
  - apply IH. intros x y Hx. apply H. now right.
  - apply Forall_app. split; [exact Hall|].
    apply Forall_forall. intros y Hy. apply H; [now left|exact Hy].
Qed.

Lemma sorted_app_inv {A} (R : A -> A -> Prop) (l1 l2 : list A) :
  StronglySorted R (l1 ++ l2) ->
  StronglySorted R l1 /\ StronglySorted R l2 /\
  forall a b, In a l1 -> In b l2 -> R a b.
Proof.
  induction l1 as [|x l1 IH]; simpl; intros H.
  - repeat split; [constructor|exact H|easy].
  - apply StronglySorted_inv in H as [Hs Hall].
    destruct (IH Hs) as (H1 & H2 & H12).
    apply Forall_app in Hall as [Hall1 Hall2].
    repeat split; [now constructor|exact H2|].
    intros a b [->|Ha] Hb; [|now apply H12].
    rewrite Forall_forall in Hall2. now apply Hall2.
Qed.

Lemma sorted_map {A B} (R : A -> A -> Prop) (R' : B -> B -> Prop)
    (f : A -> B) (l : list A) :
  (forall a b, R a b -> R' (f a) (f b)) ->
  StronglySorted R l -> StronglySorted R' (map f l).
Proof.
  intros Hf. induction 1 as [|a l Hs IH Hall]; simpl; constructor; [exact IH|].
  apply Forall_map. revert Hall. apply Forall_impl. intros b. apply Hf.
Qed.

Lemma sorted_precedes {A} (R : A -> A -> Prop) (l : list A) (a b : A) :
  (forall x, ~ R x x) -> (forall x y, R x y -> R y x -> False) ->
  StronglySorted R l -> In a l -> In b l -> R a b -> precedes a b l.
Proof.
  intros Hirr Hasym Hs Ha Hb Hab.
  apply in_split in Ha as (l1 & l' & ->).
  apply sorted_app_inv in Hs as (_ & Hs2 & H12).
  apply in_app_or in Hb as [Hb|[->|Hb]].
  - exfalso. apply (Hasym a b Hab), H12; [exact Hb|now left].
  - exfalso. now apply (Hirr b).
  - apply in_split in Hb as (m1 & m2 & ->). now exists l1, m1, m2.
Qed.

Lemma sorted_NoDup {A} (R : A -> A -> Prop) (l : list A) :
  (forall x, ~ R x x) -> StronglySorted R l -> NoDup l.
Proof.
  intros Hirr. induction 1 as [|a l Hs IH Hall]; constructor; [|exact IH].
  intros Hin. rewrite Forall_forall in Hall. exact (Hirr a (Hall a Hin)).
Qed.

(** ** What a traversal prints *)

Lemma path_at_child (t c : json) (i : nat) (q : position) :
  nth_error (subregions_of t) i = Some c ->
  path_at t (i :: q) = path_at c q.
Proof. unfold path_at. simpl. now intros ->. Qed.

Lemma path_at_outside (t : json) (i : nat) (q : position) :
  length (subregions_of t) <= i -> path_at t (i :: q) = None.
Proof.
  intros H. unfold path_at. simpl.
  apply nth_error_None in H. now rewrite H.
Qed.

Section Traversal.

Context {fmt : Formatter}.

Lemma line_JStr (indent : nat) (s : string) :
  line indent (JStr s) = render (indent, s).
Proof. unfold line, render. simpl. now rewrite py_str_JStr. Qed.

(** One call of [walk] on a dict whose two fields have the expected
    types: the node's own line, then the loop over its children. *)
Lemma walk_node (fuel : nat) (fields : list (string * json)) (indent : nat) :
  path_field_ok (dict_get fields "path") ->
  subregions_field_ok (dict_get fields "subregions") ->
  walk (S fuel) (JObj fields) indent =
  bind (own_lines (JObj fields) indent, Ok tt)
       (fun _ => for_each (subregions_of (JObj fields))
                          (fun sub => walk fuel sub (indent + 1))).
Proof.
  intros Hp Hs. unfold own_lines. simpl.
  destruct (dict_get fields "path") as [[| | | |s| |]|]; simpl in Hp; try easy;
  destruct (dict_get fields "subregions") as [[| | | | |items|]|];
    simpl in Hs; try easy; simpl;
  try (destruct (String.eqb s ""); simpl; try rewrite line_JStr);
  try (destruct (for_each items _)); reflexivity.
Qed.

Lemma children_flatten (t : json) (fuel d : nat) :
  forall cs pre,
    subregions_of t = pre ++ cs ->
    (forall c, In c cs ->
       exists ps recs, walk fuel c d = (map render recs, Ok tt) /\
                       flattens c d ps recs) ->
    exists ps recs,
      for_each cs (fun sub => walk fuel sub d) = (map render recs, Ok tt) /\
      Forall2 (fun pos r => path_at t pos = Some (snd r) /\
                            S (fst r) = d + length pos) ps recs /\
      StronglySorted pos_lt ps /\
      (forall pos, In pos ps <->
         (exists i q, pos = i :: q /\ length pre <= i) /\ path_at t pos <> None).
Proof.
  induction cs as [|c cs IH]; intros pre Hsub Hcs.
  - exists [], []. repeat split; try constructor; try easy.
    intros [(i & q & -> & Hi) Hp]. apply Hp, path_at_outside.
    rewrite Hsub, app_nil_r. exact Hi.
  - destruct (Hcs c (or_introl eq_refl)) as (psc & recsc & Hwalk & Hrec & Hsort & Hin).
    destruct (IH (pre ++ [c])) as (ps' & recs' & Hloop & Hrec' & Hsort' & Hin').
    { now rewrite <- app_assoc. }
    { intros c' Hc'. apply Hcs. now right. }
    assert (Hnth : nth_error (subregions_of t) (length pre) = Some c).
    { rewrite Hsub. now rewrite nth_error_app2, Nat.sub_diag by lia. }
    exists (map (cons (length pre)) psc ++ ps'), (recsc ++ recs').
    split; [|split; [|split]].
    + simpl. rewrite Hwalk, Hloop. simpl. now rewrite map_app.
    + apply Forall2_app; [|exact Hrec'].
      clear - Hrec Hnth. induction Hrec as [|q r psc recsc [Hq Hd] _ IHr]; simpl;
        constructor; [|exact IHr].
      rewrite (@path_at_child _ _ _ _ Hnth). split; [exact Hq|simpl; lia].
    + apply sorted_app; [|exact Hsort'|].
      * eapply sorted_map; [|exact Hsort]. intros a b. apply pos_lt_tail.
      * intros a b Ha Hb. apply in_map_iff in Ha as (q & <- & _).
        apply Hin' in Hb as [(i & q' & -> & Hi) _].
        apply pos_lt_head. rewrite length_app in Hi. simpl in Hi. lia.
    + intros pos. rewrite in_app_iff, in_map_iff, Hin'. split.
      * intros [(q & <- & Hq)|[(i & q & -> & Hi) Hp]].
        -- split; [now exists (length pre), q|].
           rewrite (@path_at_child _ _ _ _ Hnth). now apply Hin.
        -- split; [|exact Hp]. exists i, q. split; [reflexivity|].
           rewrite length_app in Hi. simpl in Hi. lia.
      * intros [(i & q & -> & Hi) Hp].
        destruct (Nat.eq_dec i (length pre)) as [->|Hne].
        -- left. exists q. split; [reflexivity|].
           apply Hin. now rewrite <- (@path_at_child _ _ _ _ Hnth).
        -- right. split; [|exact Hp]. exists i, q. split; [reflexivity|].
           rewrite length_app. simpl. lia.
Qed.

(** A walk over a well-formed region succeeds and prints, in document
    order, one line per node that has a path. *)
Lemma walk_flatten (t : json) :
  wf_region t ->
  forall fuel indent,
    height t < fuel ->
    exists ps recs,
      walk fuel t indent = (map render recs, Ok tt) /\ flattens t indent ps recs.
Proof.
  induction 1 as [fields Hp Hs Hc IH]. intros [|fuel] indent Hh; [lia|].
  rewrite (walk_node _ _ _ Hp Hs).
  destruct (children_flatten (JObj fields) fuel (indent + 1)
              (subregions_of (JObj fields)) [] eq_refl)
    as (ps & recs & Hloop & Hrec & Hsort & Hin).
  { intros c Hc'. apply IH; [exact Hc'|].
    apply height_subregion in Hc'. lia. }
  rewrite Hloop. unfold own_lines.
  assert (Hrec' : Forall2 (fun pos r => path_at (JObj fields) pos = Some (snd r) /\
                                        fst r = indent + length pos) ps recs).
  { revert Hrec. apply Forall2_impl. intros pos r [H1 H2]. split; [exact H1|lia]. }
  assert (Hcons : forall pos, In pos ps -> pos_lt [] pos).
  { intros pos Hpos. apply Hin in Hpos as [(i & q & -> & _) _]. constructor. }
  destruct (own_path (JObj fields)) as [s|] eqn:Hown.
  - exists ([] :: ps), ((indent, s) :: recs). split; [reflexivity|].
    split; [|split].
    + constructor; [|exact Hrec']. simpl. split; [exact Hown|lia].
    + constructor; [exact Hsort|]. now apply Forall_forall.
    + intros [|i q]; cbn [In].
      * split; [intros _|now left]. unfold path_at. cbn [node_at].
        rewrite Hown. discriminate.
      * rewrite Hin. split.
        -- intros [H|[_ H]]; [discriminate|exact H].
        -- intros H. right. split; [|exact H]. exists i, q. split; [reflexivity|].
           simpl. lia.
  - exists ps, recs. split; [reflexivity|]. split; [exact Hrec'|]. split; [exact Hsort|].
    intros [|i q].
    + split.
      * intros H. apply Hcons in H. inversion H.
      * intros H. exfalso. apply H. unfold path_at. cbn [node_at]. exact Hown.
    + rewrite Hin. split.
      * intros [_ H]. exact H.
      * intros H. split; [|exact H]. exists i, q. split; [reflexivity|]. simpl. lia.
Qed.


(** ** Fuel *)

Lemma for_each_fuel {A} (items : list A) (body : A -> M unit) :
  (forall x, In x items -> snd (body x) <> OutOfFuel) ->
  snd (for_each items body) <> OutOfFuel.
Proof.
  induction items as [|x items IH]; intros H; simpl; [discriminate|].
  pose proof (H x (or_introl eq_refl)) as Hx.
  assert (Hr : snd (for_each items body) <> OutOfFuel)
    by (apply IH; intros y Hy; apply H; now right).
  destruct (body x) as [out [[]|e|]]; simpl in *; try easy.
  destruct (for_each items body) as [out' r]. exact Hr.
Qed.

Lemma for_each_ext {A} (items : list A) (body body' : A -> M unit) :
  (forall x, In x items -> snd (body x) <> OutOfFuel -> body' x = body x) ->
  snd (for_each items body) <> OutOfFuel ->
  for_each items body' = for_each items body.
Proof.
  induction items as [|x items IH]; intros H Hr; simpl in *; [reflexivity|].
  assert (Hx : snd (body x) <> OutOfFuel).
  { intros E. apply Hr. destruct (body x) as [out r]. simpl in E. now subst r. }
  rewrite (H x (or_introl eq_refl) Hx).
  destruct (body x) as [out [[]|e|]]; simpl in *; try reflexivity.
  rewrite IH; [reflexivity| |].
  - intros y Hy. apply H. now right.
  - destruct (for_each items body) as [out' r]. exact Hr.
Qed.

Lemma chars_height (s : string) (c : json) : In c (chars s) -> height c = 0.
Proof.
  induction s as [|a s IH]; simpl; [easy|]. intros [<-|H]; [reflexivity|now apply IH].
Qed.

(** Fuel above the height of the value is never used up, whatever the
    value is and however the walk ends. *)
Lemma walk_fuel_enough (fuel : nat) :
  forall t indent, height t < fuel -> snd (walk fuel t indent) <> OutOfFuel.
Proof.
  induction fuel as [|fuel IH]; intros t indent Hh; [lia|].
  destruct t as [| | | | | |fields]; try discriminate.
  assert (Hpos : 0 < fuel) by (simpl in Hh; lia).
  assert (Hloop : forall subs, height subs < S fuel ->
            snd (items <- py_iter subs ;;
                 for_each items (fun sub => walk fuel sub (indent + 1))) <> OutOfFuel).
  { intros subs Hsubs.
    assert (Hitems : forall items, (forall c, In c items -> height c < fuel) ->
              snd (for_each items (fun sub => walk fuel sub (indent + 1))) <> OutOfFuel).
    { intros items Hi. apply for_each_fuel. intros c Hc. apply IH. now apply Hi. }
    destruct subs as [| | | |s|items|fs]; try discriminate;
      unfold py_iter; rewrite bind_ret; apply Hitems; intros c Hc.
    - apply chars_height in Hc. lia.
    - apply height_item in Hc. lia.
    - apply in_map_iff in Hc as (kv & <- & _). simpl. lia. }
  cbn [walk]. unfold py_get.
  assert (Hsub : snd (subs <- match dict_get fields "subregions" with
                              | Some v => ret v
                              | None => ret (JList [])
                              end ;;
                      items <- py_iter subs ;;
                      for_each items (fun sub => walk fuel sub (indent + 1)))
                 <> OutOfFuel).
  { destruct (dict_get fields "subregions") as [v|] eqn:E; rewrite bind_ret; apply Hloop.
    - apply height_field in E. lia.
    - simpl. lia. }
  destruct (dict_get fields "path") as [p|]; rewrite bind_ret.
  - destruct (truthy p).
    + unfold print. rewrite bind_ok. exact Hsub.
    + rewrite bind_ret. exact Hsub.
  - cbn [truthy]. rewrite bind_ret. exact Hsub.
Qed.

(** Once a walk ends without using up its fuel, more fuel changes
    nothing. *)
Lemma walk_fuel_mono (fuel : nat) :
  forall fuel' t indent,
    fuel <= fuel' ->
    snd (walk fuel t indent) <> OutOfFuel ->
    walk fuel' t indent = walk fuel t indent.
Proof.
  induction fuel as [|fuel IH]; intros fuel' t indent Hle Hr; [now simpl in Hr|].
  destruct fuel' as [|fuel']; [lia|].
  cbn [walk] in *.
  destruct (py_get t "path" JNull) as [out [p|e|]]; try reflexivity.
  rewrite !bind_ok in *. cbn [snd fst] in *.
  destruct (if truthy p then print (line indent p) else ret tt) as [out1 [[]|e|]];
    try reflexivity.
  rewrite !bind_ok in *. cbn [snd fst] in *.
  destruct (py_get t "subregions" (JList [])) as [out2 [subs|e|]]; try reflexivity.
  rewrite !bind_ok in *. cbn [snd fst] in *.
  destruct (py_iter subs) as [out3 [items|e|]]; try reflexivity.
  rewrite !bind_ok in *. cbn [snd fst] in *.
  rewrite (for_each_ext items (fun sub => walk fuel sub (indent + 1))
             (fun sub => walk fuel' sub (indent + 1))); [reflexivity| |exact Hr].
  intros c _ Hc. apply IH; [lia|exact Hc].
Qed.

End Traversal.

(** ** The store is only read *)

Section StoreFacts.

Import Store.
Local Open Scope store_scope.

Lemma ret_read_only {A} (a : A) : read_only (Store.ret a).
Proof. intros h. exists [], (Ok a). intros out. unfold Store.ret. now rewrite app_nil_r. Qed.

Lemma raise_read_only {A} (e : exn) : read_only (@Store.raise A e).
Proof. intros h. exists [], (Raise e). intros out. unfold Store.raise. now rewrite app_nil_r. Qed.

Lemma out_of_fuel_read_only {A} : read_only (@Store.out_of_fuel A).
Proof. intros h. exists [], OutOfFuel. intros out. unfold Store.out_of_fuel. now rewrite app_nil_r. Qed.

Lemma read_read_only (l : loc) : read_only (read l).
Proof. intros h. exists [], (Ok (h l)). intros out. unfold read. simpl. now rewrite app_nil_r. Qed.

Lemma print_read_only (text : string) : read_only (Store.print text).
Proof. intros h. exists [text], (Ok tt). intros out. reflexivity. Qed.

Lemma bind_read_only {A B} (m : Store.M A) (k : A -> Store.M B) :
  read_only m -> (forall a, read_only (k a)) -> read_only (Store.bind m k).
Proof.
  intros Hm Hk h. destruct (Hm h) as (lines1 & [a|e|] & H1).
  - destruct (Hk a h) as (lines2 & r2 & H2). exists (lines1 ++ lines2), r2.
    intros out. unfold Store.bind. now rewrite H1, H2, app_assoc.
  - exists lines1, (Raise e). intros out. unfold Store.bind. now rewrite H1.
  - exists lines1, OutOfFuel. intros out. unfold Store.bind. now rewrite H1.
Qed.

Create HintDb read_only discriminated.
#[local] Hint Resolve ret_read_only raise_read_only out_of_fuel_read_only
  read_read_only print_read_only : read_only.

Ltac read_only_step :=
  match goal with
  | |- read_only (Store.bind _ _) => apply bind_read_only; [|intros ?]
  | |- read_only (match ?x with _ => _ end) => destruct x
  | |- read_only (if ?b then _ else _) => destruct b
  | |- _ => solve [auto with read_only]
  end.

Lemma truthy_read_only (v : value) : read_only (Store.truthy v).
Proof. destruct v; cbn [Store.truthy]; repeat read_only_step. Qed.

Lemma py_get_read_only (obj : value) (key : string) (default : value) :
  read_only (Store.py_get obj key default).
Proof. destruct obj; cbn [Store.py_get]; repeat read_only_step. Qed.

Lemma py_iter_read_only (v : value) : read_only (Store.py_iter v).
Proof. destruct v; cbn [Store.py_iter]; repeat read_only_step. Qed.

Lemma py_next_read_only (it : iterator) : read_only (py_next it).
Proof. destruct it; cbn [py_next]; repeat read_only_step. Qed.

#[local] Hint Resolve truthy_read_only py_get_read_only py_iter_read_only
  py_next_read_only : read_only.

Lemma for_loop_read_only (fuel : nat) :
  forall it body,
    (forall v, read_only (body v)) -> read_only (for_loop fuel it body).
Proof.
  induction fuel as [|fuel IH]; intros it body Hbody; cbn [for_loop].
  - auto with read_only.
  - apply bind_read_only; [auto with read_only|].
    intros [[v it']|]; [|auto with read_only].
    apply bind_read_only; [apply Hbody|]. intros _. now apply IH.
Qed.

Context {fmt : Store.Formatter}.

Lemma format_read_only (indent : nat) (path : value) : read_only (format indent path).
Proof.
  intros h. eexists [], _. intros out. unfold format. simpl.
  now rewrite app_nil_r.
Qed.

(** [walk] only reads the store. *)
Lemma walk_read_only (fuel : nat) :
  forall region indent, read_only (Store.walk fuel region indent).
Proof.
  induction fuel as [|fuel IH]; intros region indent; cbn [Store.walk].
  - auto with read_only.
  - apply bind_read_only; [auto with read_only|]. intros path.
    apply bind_read_only; [auto with read_only|]. intros nonempty.
    apply bind_read_only.
    { destruct nonempty; [|auto with read_only].
      apply bind_read_only; [apply format_read_only|]. intros text.
      auto with read_only. }
    intros _.
    apply bind_read_only; [auto with read_only|]. intros subs.
    apply bind_read_only; [auto with read_only|]. intros it.
    apply for_loop_read_only. intros v. apply IH.
Qed.

End StoreFacts.

(** The store model is able to tell a mutation: an [append] to the
    list of regions is not a read-only computation. *)
Example list_append_not_read_only :
  ~ Store.read_only (Store.list_append 1 Store.VNone).
Proof.
  intros H. destruct (H Store.scenario_b_store) as (lines & r & Heq).
  specialize (Heq []). unfold Store.list_append, Store.bind, Store.read, Store.write in Heq.
  simpl in Heq. injection Heq as Hobj _ _.
  apply (f_equal (fun h => h 1)) in Hobj. discriminate.
Qed.

Example store_scenario_b :
  @Store.walk Store.plain_formatter 5 (Store.VRef 2) 0
    (Store.World Store.scenario_b_store []) =
  (Store.World Store.scenario_b_store ["- europe"; "  - europe/albania"], Ok tt).
Proof. reflexivity. Qed.

(** ** The two embeddings agree *)

Lemma span_item (c : json) (items : list json) :
  In c items -> span c < span (JList items).
Proof.
  intros H. simpl. apply (in_map span), list_max_In in H. lia.
Qed.

Lemma span_length (items : list json) : length items < span (JList items).
Proof. simpl. lia. Qed.

Lemma span_field (fields : list (string * json)) (key : string) (v : json) :
  dict_get fields key = Some v -> span v < span (JObj fields).
Proof.
  intros H. simpl.
  assert (Hin : exists k, In (k, v) fields).
  { induction fields as [|[k w] fields IH]; simpl in *; [discriminate|].
    destruct (String.eqb k key).
    - injection H as ->. exists k. now left.
    - destruct (IH H) as [k' Hk']. exists k'. now right. }
  destruct Hin as [k Hin].
  apply (in_map (fun kv => Nat.max (String.length (fst kv)) (span (snd kv)))),
    list_max_In in Hin. simpl in Hin. lia.
Qed.

Lemma span_key (fields : list (string * json)) (kv : string * json) :
  In kv fields -> String.length (fst kv) < span (JObj fields).
Proof.
  intros Hin. simpl.
  apply (in_map (fun kv => Nat.max (String.length (fst kv)) (span (snd kv)))),
    list_max_In in Hin. lia.
Qed.

Lemma span_chars (s : string) (c : json) : In c (chars s) -> span c <= String.length s.
Proof.
  induction s as [|a s IH]; simpl; [easy|].
  intros [<-|H]; [simpl; lia|]. apply IH in H. lia.
Qed.

Lemma height_le_span (t : json) (fuel : nat) : span t < fuel -> height t < fuel.
Proof.
  revert t. induction fuel as [|fuel IH]; intros t H; [lia|].
  destruct t as [| | | | |items|fields]; simpl; try lia.
  - assert (Hmax : list_max (map height items) <= fuel - 1).
    { apply list_max_le, Forall_map, Forall_forall. intros c Hc.
      pose proof (span_item c items Hc) as Hs. specialize (IH c). lia. }
    simpl in H. lia.
  - assert (Hmax : list_max (map (fun kv => height (snd kv)) fields) <= fuel - 1).
    { apply list_max_le, Forall_map, Forall_forall. intros kv Hkv.
      apply (in_map (fun kv => Nat.max (String.length (fst kv)) (span (snd kv)))),
        list_max_In in Hkv. simpl in H. specialize (IH (snd kv)). lia. }
    simpl in H. lia.
Qed.

Lemma skipn_step {A} (l : list A) (i : nat) :
  nth_error l i = hd_error (skipn i l) /\ skipn (S i) l = tl (skipn i l).
Proof.
  revert l. induction i as [|i IH]; intros [|x l]; try (split; reflexivity).
  destruct (IH l) as [H1 H2]. split; [exact H1|]. exact H2.
Qed.

Lemma get_list_ascii (s : string) (i : nat) :
  String.get i s = nth_error (list_ascii_of_string s) i.
Proof.
  revert i. induction s as [|a s IH]; intros [|i]; simpl; try reflexivity. apply IH.
Qed.

Lemma length_list_ascii (s : string) :
  length (list_ascii_of_string s) = String.length s.
Proof. induction s as [|a s IH]; simpl; [reflexivity|now rewrite IH]. Qed.

Lemma chars_list_ascii (s : string) :
  chars s = map (fun c => JStr (String c EmptyString)) (list_ascii_of_string s).
Proof. induction s as [|a s IH]; simpl; [reflexivity|now rewrite IH]. Qed.

Lemma py_next_remaining (h : Store.loc -> Store.object) (it : Store.iterator)
    (out : list string) :
  Store.in_step h it ->
  Store.py_next it (Store.World h out) =
  (Store.World h out,
   Ok match Store.remaining h it with
      | [] => None
      | v :: _ => Some (v, Store.advance it)
      end) /\
  Store.remaining h (Store.advance it) = tl (Store.remaining h it) /\
  Store.in_step h (Store.advance it).
Proof.
  intros Hstep.
  destruct it as [l i|l i size|s i|];
    cbn [Store.py_next Store.remaining Store.advance Store.in_step] in *;
    unfold Store.bind, Store.read, Store.ret; cbn [Store.objects].
  - destruct (h l) as [items|fields]; [|now repeat split].
    destruct (skipn_step items i) as [H1 H2]. rewrite H1, H2.
    destruct (skipn i items); now repeat split.
  - destruct (h l) as [items|fields]; [now repeat split|].
    subst size. rewrite Nat.eqb_refl.
    destruct (skipn_step fields i) as [H1 H2]. rewrite H1, H2.
    destruct (skipn i fields) as [|[k v] rest]; now repeat split.
  - rewrite get_list_ascii.
    destruct (skipn_step (list_ascii_of_string s) i) as [H1 H2]. rewrite H1, H2.
    destruct (skipn i (list_ascii_of_string s)); now repeat split.
  - now repeat split.
Qed.

(** As long as the body only reads the store, a [for] loop with fuel
    for every item visits the items its iterator had at the start. *)
Lemma for_loop_items (fuel : nat) :
  forall it body h out,
    (forall v, Store.read_only (body v)) ->
    Store.in_step h it ->
    length (Store.remaining h it) < fuel ->
    Store.for_loop fuel it body (Store.World h out) =
    Store.for_items (Store.remaining h it) body (Store.World h out).
Proof.
  induction fuel as [|fuel IH]; intros it body h out Hbody Hstep Hlen; [lia|].
  cbn [Store.for_loop]. unfold Store.bind at 1.
  destruct (py_next_remaining h it out Hstep) as (Hnext & Hrem & Hstep').
  rewrite Hnext.
  destruct (Store.remaining h it) as [|v rest] eqn:E; [reflexivity|].
  cbn [Store.for_items]. unfold Store.bind.
  destruct (Hbody v h) as (lines & r & Hv). rewrite Hv.
  destruct r as [[]|e|]; try reflexivity.
  rewrite IH; [now rewrite Hrem|exact Hbody|exact Hstep'|].
  rewrite Hrem. simpl in *. lia.
Qed.

Lemma bind_nil_ok {A B} (a : A) (k : A -> M B) : bind ([], Ok a) k = k a.
Proof. exact (bind_ret a k). Qed.

Lemma dict_get_represents (h : Store.loc -> Store.object)
    (vfs : list (string * Store.value)) (tfs : list (string * json)) (key : string) :
  Forall2 (fun vf tf => fst vf = fst tf /\ Store.represents h (snd vf) (snd tf)) vfs tfs ->
  match dict_get vfs key, dict_get tfs key with
  | Some v, Some t => Store.represents h v t
  | None, None => True
  | _, _ => False
  end.
Proof.
  induction 1 as [|[k v] [k' t] vfs tfs [Hk Hv] _ IH]; simpl in *; [exact I|].
  subst k'. destruct (String.eqb k key); [exact Hv|exact IH].
Qed.

Lemma truthy_represents (h : Store.loc -> Store.object) (v : Store.value) (t : json)
    (out : list string) :
  Store.represents h v t ->
  Store.truthy v (Store.World h out) = (Store.World h out, Ok (truthy t)).
Proof.
  intros H. inversion H as [| | | | | |l vs ts Hl Hall|l vfs tfs Hl Hall]; subst;
    try reflexivity;
    cbn [Store.truthy]; unfold Store.bind, Store.read, Store.ret; cbn [Store.objects];
    rewrite Hl; destruct Hall; reflexivity.
Qed.

Lemma py_get_represents (h : Store.loc -> Store.object) (v d : Store.value)
    (t dt : json) (key : string) (out : list string) :
  Store.represents h v t ->
  Store.represents h d dt ->
  (exists v' t',
     Store.py_get v key d (Store.World h out) = (Store.World h out, Ok v') /\
     py_get t key dt = ([], Ok t') /\ Store.represents h v' t') \/
  (Store.py_get v key d (Store.World h out) = (Store.World h out, Raise AttributeError) /\
   py_get t key dt = ([], Raise AttributeError)).
Proof.
  intros H Hd. inversion H as [| | | | | |l vs ts Hl Hall|l vfs tfs Hl Hall]; subst;
    try (right; split; reflexivity).
  - right. cbn [Store.py_get py_get]. unfold Store.bind, Store.read. cbn [Store.objects].
    rewrite Hl. split; reflexivity.
  - left. cbn [Store.py_get py_get]. unfold Store.bind, Store.read. cbn [Store.objects].
    rewrite Hl. pose proof (dict_get_represents h vfs tfs key Hall) as Hget.
    destruct (dict_get vfs key) as [v'|], (dict_get tfs key) as [t'|]; try easy.
    + exists v', t'. now repeat split.
    + exists d, dt. now repeat split.
Qed.

Lemma py_iter_represents (h : Store.loc -> Store.object) (v : Store.value) (t : json)
    (out : list string) :
  Store.represents h v t ->
  (exists it items,
     Store.py_iter v (Store.World h out) = (Store.World h out, Ok it) /\
     py_iter t = ([], Ok items) /\
     Store.in_step h it /\
     Forall2 (Store.represents h) (Store.remaining h it) items) \/
  (Store.py_iter v (Store.World h out) = (Store.World h out, Raise TypeError) /\
   py_iter t = ([], Raise TypeError)).
Proof.
  intros H. inversion H as [| | | |s| |l vs ts Hl Hall|l vfs tfs Hl Hall]; subst;
    try (right; split; reflexivity).
  - left. exists (Store.IChars s 0), (chars s). repeat split.
    cbn [Store.remaining skipn]. rewrite chars_list_ascii.
    induction (list_ascii_of_string s) as [|c cs IH]; simpl; constructor;
      [constructor|exact IH].
  - left. exists Store.IEmpty, []. repeat split. constructor.
  - left. exists (Store.IList l 0), ts.
    cbn [Store.py_iter py_iter Store.remaining Store.in_step].
    unfold Store.bind, Store.read, Store.ret. cbn [Store.objects]. rewrite Hl.
    now repeat split.
  - left. exists (Store.IKeys l 0 (length vfs)), (map (fun kv => JStr (fst kv)) tfs).
    cbn [Store.py_iter py_iter Store.remaining Store.in_step].
    unfold Store.bind, Store.read, Store.ret. cbn [Store.objects]. rewrite Hl.
    repeat split. cbn [skipn]. clear Hl H.
    induction Hall as [|vf tf vfs tfs [Hk _] _ IH]; simpl; constructor; [|exact IH].
    rewrite Hk. constructor.
Qed.

Lemma for_items_refines (h : Store.loc -> Store.object)
    (body : Store.value -> Store.M unit) (body' : json -> M unit)
    (vs : list Store.value) (ts : list json) :
  Forall2 (fun v t => refines h (body v) (body' t)) vs ts ->
  refines h (Store.for_items vs body) (for_each ts body').
Proof.
  induction 1 as [|v t vs ts Hv _ IH]; intros out.
  - cbn. now rewrite app_nil_r.
  - cbn [Store.for_items for_each]. unfold Store.bind. rewrite Hv.
    destruct (body' t) as [lines [[]|e|]]; cbn [fst snd bind]; try reflexivity.
    rewrite IH. destruct (for_each ts body') as [lines' r]. cbn [fst snd].
    now rewrite app_assoc.
Qed.

Section Refinement.

Context {fmt : Formatter} {sfmt : Store.Formatter}.

(** The two formatters give a value the same text. *)
Hypothesis formatters_agree :
  forall h v t, Store.represents h v t -> Store.py_str h v = py_str t.

(** On a region that is laid out in the store as a finite tree, the
    walk over the store is the walk over the JSON value. *)
Lemma walk_refines (fuel : nat) :
  forall v t indent h,
    Store.represents h v t ->
    span t < fuel ->
    refines h (Store.walk fuel v indent) (walk fuel t indent).
Proof.
  induction fuel as [|fuel IH]; intros v t indent h Hrep Hspan out; [lia|].
  cbn [Store.walk walk].
  destruct (py_get_represents h v Store.VNone t JNull "path" out Hrep (Store.rep_none h))
    as [(vp & tp & Hsg & Htg & Hp)|[Hsg Htg]];
    unfold Store.bind at 1; rewrite Hsg, Htg;
    [|cbn; now rewrite app_nil_r].
  rewrite bind_nil_ok.
  unfold Store.bind at 1. rewrite (truthy_represents h vp tp out Hp).
  unfold Store.bind at 1.
  assert (Hown : exists lines,
            (if truthy tp
             then Store.bind (Store.format indent vp) (fun text => Store.print text)
             else Store.ret tt) (Store.World h out) =
            (Store.World h (out ++ lines), Ok tt) /\
            (if truthy tp then print (line indent tp) else ret tt) = (lines, Ok tt)).
  { destruct (truthy tp).
    - exists [line indent tp]. split; [|reflexivity].
      unfold Store.bind, Store.format, Store.print, line. cbn [Store.objects Store.stdout].
      now rewrite (formatters_agree h vp tp Hp).
    - exists []. split; [|reflexivity]. unfold Store.ret. now rewrite app_nil_r. }
  destruct Hown as (lines & Hs1 & Ht1). rewrite Hs1, Ht1, bind_ok.
  assert (Ht : exists fields, t = JObj fields).
  { destruct t; try discriminate. now eexists. }
  destruct Ht as [fields ->].
  destruct (py_get_represents h v Store.VFreshList (JObj fields) (JList []) "subregions"
              (out ++ lines) Hrep (Store.rep_fresh h))
    as [(vs & ts & Hsg2 & Htg2 & Hsubs)|[Hsg2 Htg2]];
    unfold Store.bind at 1; rewrite Hsg2, Htg2;
    [|exfalso; cbn [py_get] in Htg2;
      destruct (dict_get fields "subregions"); discriminate Htg2].
  rewrite bind_nil_ok.
  assert (Hts : span ts < fuel).
  { cbn [py_get] in Htg2. destruct (dict_get fields "subregions") as [x|] eqn:E.
    - injection Htg2 as <-. apply span_field in E. lia.
    - injection Htg2 as <-. simpl in *. lia. }
  destruct (py_iter_represents h vs ts (out ++ lines) Hsubs)
    as [(it & items & Hsi & Hti & Hstep & Hitems)|[Hsi Hti]];
    unfold Store.bind at 1; rewrite Hsi, Hti;
    [|cbn; now rewrite !app_nil_r].
  rewrite bind_nil_ok.
  assert (Hbound : forall c, In c items -> span c < fuel).
  { intros c Hc. destruct ts as [| | | |s|its|fs]; try discriminate;
      cbn [py_iter] in Hti; injection Hti as <-.
    - apply span_chars in Hc. simpl in Hts. lia.
    - apply span_item in Hc. lia.
    - apply in_map_iff in Hc as (kv & <- & Hkv). apply span_key in Hkv. simpl span at 1. lia. }
  rewrite for_loop_items;
    [|intros x; apply walk_read_only|exact Hstep|].
  2:{ rewrite (Forall2_length Hitems).
      destruct ts as [| | | |s|its|fs]; try discriminate;
        cbn [py_iter] in Hti; injection Hti as <-.
      - rewrite chars_list_ascii, length_map, length_list_ascii.
        cbn [span] in Hts. exact Hts.
      - simpl in Hts. lia.
      - rewrite length_map. simpl in Hts. lia. }
  rewrite (for_items_refines h (fun sub => Store.walk fuel sub (indent + 1))
             (fun sub => walk fuel sub (indent + 1)) (Store.remaining h it) items).
  - cbn [fst snd]. destruct (for_each items _) as [lines' r]. cbn [fst snd].
    now rewrite app_assoc.
  - clear - IH Hitems Hbound. induction Hitems as [|x c xs cs Hx _ IHxs]; constructor.
    + apply IH; [exact Hx|]. apply Hbound. now left.
    + apply IHxs. intros c' Hc'. apply Hbound. now right.
Qed.

(** Hence the walk over the store terminates whenever the region is a
    finite tree of objects. *)
Lemma store_walk_ends (fuel : nat) (v : Store.value) (t : json)
    (indent : nat) (h : Store.loc -> Store.object) (out : list string) :
  Store.represents h v t ->
  span t < fuel ->
  snd (Store.walk fuel v indent (Store.World h out)) <> OutOfFuel.
Proof.
  intros Hrep Hspan. rewrite (walk_refines fuel v t indent h Hrep Hspan out).
  cbn [snd]. apply walk_fuel_enough. now apply height_le_span.
Qed.

End Refinement.

Lemma plain_formatters_agree (h : Store.loc -> Store.object) (v : Store.value) (t : json) :
  Store.represents h v t -> Store.plain_str h v = plain_str t.
Proof. intros H. destruct H; reflexivity. Qed.

Lemma scenario_b_represented :
  Store.represents Store.scenario_b_store (Store.VRef 0) scenario_b.
Proof.
  unfold scenario_b, europe, albania.
  repeat first
    [ eapply Store.rep_dict; [reflexivity|]
    | eapply Store.rep_list; [reflexivity|]
    | apply Store.rep_str
    | constructor
    | split; [reflexivity|] ]; cbn [snd].
  all: repeat first
    [ eapply Store.rep_dict; [reflexivity|]
    | eapply Store.rep_list; [reflexivity|]
    | apply Store.rep_str
    | constructor
    | split; [reflexivity|]
    | progress cbn [snd] ].
Qed.

(** Scenario B in the store and as a JSON value. *)
Example scenario_b_refines :
  refines Store.scenario_b_store
          (@Store.walk Store.plain_formatter 23 (Store.VRef 0) 0)
          (walk 23 scenario_b 0).
Proof.
  apply (@walk_refines plain_formatter Store.plain_formatter plain_formatters_agree 23).
  - exact scenario_b_represented.
  - vm_compute. lia.
Qed.

Lemma cyclic_store_step {sfmt : Store.Formatter} (fuel indent : nat)
    (out : list string) :
  Store.walk (S (S fuel)) (Store.VRef 0) indent (Store.World Store.cyclic_store out) =
  Store.bind (Store.walk (S fuel) (Store.VRef 0) (indent + 1))
    (fun _ => Store.for_loop fuel (Store.IList 1 1)
                (fun sub => Store.walk (S fuel) sub (indent + 1)))
    (Store.World Store.cyclic_store out).
Proof. reflexivity. Qed.

(** Without the precondition nothing stops the walk: on a cyclic store
    it uses up any amount of fuel. *)
Lemma cyclic_store_diverges {sfmt : Store.Formatter} (fuel : nat) :
  forall indent out,
    snd (Store.walk fuel (Store.VRef 0) indent (Store.World Store.cyclic_store out)) =
    OutOfFuel.
Proof.
  induction fuel as [|fuel IH]; intros indent out; [reflexivity|].
  destruct fuel as [|fuel]; [reflexivity|].
  rewrite cyclic_store_step. unfold Store.bind.
  specialize (IH (indent + 1) out).
  destruct (Store.walk (S fuel) (Store.VRef 0) (indent + 1)
              (Store.World Store.cyclic_store out)) as [w [[]|e|]];
    cbn [snd] in IH; try discriminate. reflexivity.
Qed.

(** * Main results *)

Lemma bind_const_outcome {A} (m : M A) (z : Z) :
  snd (m ;;; ret z) = Ok z \/ (forall y, snd (m ;;; ret z) <> Ok y).
Proof.
  destruct m as [out [a|e|]]; simpl; [now left|right; discriminate..].
Qed.

(** C1, as the claim states it, fails: the empty object [{}] is a
    present document with no ["subregions"] field, and [main] answers
    1 for it because [not {}] is true. *)
Lemma main_empty_object_returns_1 :
  JObj [] <> JNull /\
  dict_get (@nil (string * json)) "subregions" = None /\
  main 5 (JObj []) = ([], Ok 1%Z) /\
  ~ (forall fuel fields,
       dict_get fields "subregions" = None \/
       dict_get fields "subregions" = Some (JList []) ->
       main fuel (JObj fields) = ([], Ok 0%Z)).
Proof.
  split; [discriminate|]. split; [reflexivity|]. split; [reflexivity|].
  intros H. specialize (H 5 [] (or_introl eq_refl)). discriminate.
Qed.

(** C1 (amended): a document that is a non-empty object without
    top-level regions (its ["subregions"] is absent or the empty list)
    is a normal case: [main] prints nothing, calls [walk] not even
    once (no fuel is needed) and returns 0.  [main] returns 1 exactly
    for the falsy documents: [None], and also [{}]. *)
Theorem main_zero_regions {fmt : Formatter} :
  (forall fuel fields,
     fields <> [] ->
     dict_get fields "subregions" = None \/
     dict_get fields "subregions" = Some (JList []) ->
     main fuel (JObj fields) = ([], Ok 0%Z)) /\
  (forall fuel data,
     snd (main fuel data) = Ok 1%Z <-> truthy data = false) /\
  (forall fuel data, truthy data = false -> main fuel data = ([], Ok 1%Z)).
Proof.
  split; [|split].
  - intros fuel fields Hne Hsub. unfold main.
    assert (Ht : truthy (JObj fields) = true) by (now destruct fields).
    rewrite Ht. cbn [negb]. unfold py_get.
    destruct Hsub as [-> | ->]; reflexivity.
  - intros fuel data. unfold main. destruct (truthy data); cbn [negb].
    + split; [|discriminate]. intros H.
      match type of H with snd (bind ?m _) = _ => destruct m as [out [r|e|]] end;
        try discriminate.
      rewrite bind_ok in H. cbn [snd] in H.
      match type of H with snd (bind ?m _) = _ => destruct m as [out1 [its|e|]] end;
        try discriminate.
      rewrite bind_ok in H. cbn [snd] in H.
      match type of H with snd (bind ?m _) = _ =>
        destruct (bind_const_outcome m 0%Z) as [E|E] end.
      * rewrite E in H. discriminate.
      * now apply E in H.
    + split; reflexivity.
  - intros fuel data Ht. unfold main. now rewrite Ht.
Qed.

Lemma main_zero_regions_witness :
  [("subregions", JList [])] <> [] /\
  main 0 (JObj [("subregions", JList [])]) = ([], Ok 0%Z).
Proof.
  split; [discriminate|].
  apply (proj1 main_zero_regions 0 [("subregions", JList [])]);
    [discriminate|right; reflexivity].
Defined.

Ltac solve_wf :=
  repeat first
    [ progress cbn [In subregions_of dict_get String.eqb Ascii.eqb Bool.eqb
                      path_field_ok subregions_field_ok]
    | exact I
    | match goal with
      | |- wf_region (JObj _) => constructor
      | |- forall c, _ \/ _ -> _ => intros ? [<-|?]
      | |- forall c, False -> _ => intros ? []
      | H : _ \/ _ |- _ => destruct H as [<-|H]
      | H : False |- _ => destruct H
      | |- _ /\ _ => split
      | |- _ :: _ <> [] => discriminate
      end ].

Lemma wf_europe : wf_region europe.
Proof. unfold europe, albania. solve_wf. Qed.


Lemma wf_scenario_c : wf_region scenario_c.
Proof. unfold scenario_c. solve_wf. Qed.



Lemma sorted_nth {A} (R : A -> A -> Prop) (l : list A) :
  StronglySorted R l ->
  forall m n a b,
    m < n -> nth_error l m = Some a -> nth_error l n = Some b -> R a b.
Proof.
  induction 1 as [|x l Hs IH Hall]; intros m n a b Hmn Hm Hn.
  - now destruct m.
  - destruct n as [|n]; [lia|]. destruct m as [|m]; simpl in *.
    + injection Hm as <-. rewrite Forall_forall in Hall.
      apply Hall. eapply nth_error_In. exact Hn.
    + apply (IH m n); [lia|exact Hm|exact Hn].
Qed.

(** In a list sorted by a strict order, related elements stand in
    the order of their indices. *)
Lemma sorted_nth_lt {A} (R : A -> A -> Prop) (l : list A) (m n : nat) (a b : A) :
  (forall x, ~ R x x) -> (forall x y, R x y -> R y x -> False) ->
  StronglySorted R l ->
  nth_error l m = Some a -> nth_error l n = Some b -> R a b -> m < n.
Proof.
  intros Hirr Hasym Hs Hm Hn Hab.
  destruct (Nat.lt_trichotomy m n) as [Hlt|[->|Hgt]]; [exact Hlt| |].
  - exfalso. rewrite Hm in Hn. injection Hn as <-. exact (Hirr a Hab).
  - exfalso. apply (Hasym a b Hab). exact (sorted_nth R l Hs n m b a Hgt Hn Hm).
Qed.

Lemma wf_two_branches : wf_region two_branches.
Proof. unfold two_branches. solve_wf. Qed.

(** C3: the walk is a pre-order, depth-first traversal.  The lines of
    a well-formed region are the records [recs], in this order; the
    k-th record is the record of the node at the k-th position of
    [ps], and [ps] lists each node that has a path exactly once.  In
    this numbering the record of a node comes before the record of
    each of its descendants, and every record from below an earlier
    child comes before every record from below a later child of the
    same parent. *)
Theorem walk_is_preorder {fmt : Formatter} (t : json) (fuel indent : nat) :
  wf_region t ->
  height t < fuel ->
  exists ps recs,
    walk fuel t indent = (map render recs, Ok tt) /\
    Forall2 (fun pos r => path_at t pos = Some (snd r) /\
                          fst r = indent + length pos) ps recs /\
    NoDup ps /\
    (forall pos, In pos ps <-> path_at t pos <> None) /\
    (forall m n p i r,
       nth_error ps m = Some p -> nth_error ps n = Some (p ++ i :: r) -> m < n) /\
    (forall m n q i j r r',
       i < j ->
       nth_error ps m = Some (q ++ i :: r) -> nth_error ps n = Some (q ++ j :: r') ->
       m < n).
Proof.
  intros Hwf Hh.
  destruct (walk_flatten t Hwf fuel indent Hh) as (ps & recs & Hwalk & Hrec & Hsort & Hin).
  exists ps, recs. split; [exact Hwalk|]. split; [exact Hrec|]. split.
  { eapply sorted_NoDup; [exact pos_lt_irrefl|exact Hsort]. }
  split; [exact Hin|]. split.
  - intros m n p i r Hm Hn.
    exact (sorted_nth_lt pos_lt ps m n p (p ++ i :: r) pos_lt_irrefl pos_lt_asym
             Hsort Hm Hn (pos_lt_descendant p i r)).
  - intros m n q i j r r' Hij Hm Hn.
    exact (sorted_nth_lt pos_lt ps m n _ _ pos_lt_irrefl pos_lt_asym
             Hsort Hm Hn (pos_lt_siblings q i j r r' Hij)).
Qed.

Lemma walk_is_preorder_witness :
  wf_region two_branches /\ height two_branches < 6 /\
  exists ps recs,
    walk 6 two_branches 0 = (map render recs, Ok tt) /\
    Forall2 (fun pos r => path_at two_branches pos = Some (snd r) /\
                          fst r = 0 + length pos) ps recs /\
    NoDup ps /\
    (forall pos, In pos ps <-> path_at two_branches pos <> None) /\
    (forall m n p i r,
       nth_error ps m = Some p -> nth_error ps n = Some (p ++ i :: r) -> m < n) /\
    (forall m n q i j r r',
       i < j ->
       nth_error ps m = Some (q ++ i :: r) -> nth_error ps n = Some (q ++ j :: r') ->
       m < n).
Proof.
  split; [exact wf_two_branches|]. split; [vm_compute; lia|].
  apply (walk_is_preorder two_branches 6 0); [exact wf_two_branches|vm_compute; lia].
Defined.

(** C4: in a walk over a well-formed region, a node has a record if
    and only if its path is present and non-empty, and the record is
    (depth, path) with the depth counted from the node's place in the
    tree, whatever the nodes above it printed.  A node without a path
    prints nothing itself: its walk is exactly the loop over its
    children, one level deeper. *)
Theorem record_iff_path {fmt : Formatter} :
  (forall t fuel indent,
     wf_region t ->
     height t < fuel ->
     exists ps recs,
       walk fuel t indent = (map render recs, Ok tt) /\
       NoDup ps /\
       Forall2 (fun pos r => path_at t pos = Some (snd r) /\
                             fst r = indent + length pos) ps recs /\
       (forall pos n, node_at t pos = Some n ->
          (In pos ps <-> exists p, own_path n = Some p))) /\
  (forall fields fuel indent,
     wf_region (JObj fields) ->
     own_path (JObj fields) = None ->
     walk (S fuel) (JObj fields) indent =
     for_each (subregions_of (JObj fields))
              (fun sub => walk fuel sub (indent + 1))).
Proof.
  split.
  - intros t fuel indent Hwf Hh.
    destruct (walk_flatten t Hwf fuel indent Hh) as (ps & recs & Hwalk & Hrec & Hsort & Hin).
    exists ps, recs. split; [exact Hwalk|]. split.
    { eapply sorted_NoDup; [exact pos_lt_irrefl|exact Hsort]. }
    split; [exact Hrec|].
    intros pos n Hn. rewrite Hin. unfold path_at. rewrite Hn.
    destruct (own_path n) as [p|].
    + split; [intros _; now exists p|discriminate].
    + split; [easy|intros [p Hp]; discriminate].
  - intros fields fuel indent Hwf Hnone. inversion Hwf as [fs Hp Hs Hc]; subst.
    rewrite (walk_node _ _ _ Hp Hs). unfold own_lines. rewrite Hnone.
    unfold bind. now destruct (for_each _ _).
Qed.

Lemma record_iff_path_witness :
  wf_region scenario_c /\ own_path scenario_c = None /\
  walk 3 scenario_c 0 =
  for_each (subregions_of scenario_c) (fun sub => walk 2 sub (0 + 1)).
Proof.
  split; [exact wf_scenario_c|]. split; [reflexivity|].
  apply (proj2 record_iff_path _ 2 0 wf_scenario_c). reflexivity.
Defined.

(** C5: a walk over a well-formed region prints as many records as
    the tree has nodes with a present, non-empty path, one for each:
    [ps] lists every such node once, and the records are theirs, one
    by one. *)
Theorem one_record_per_path {fmt : Formatter} (t : json) (fuel indent : nat) :
  wf_region t ->
  height t < fuel ->
  exists ps recs,
    walk fuel t indent = (map render recs, Ok tt) /\
    NoDup ps /\
    (forall pos, In pos ps <-> path_at t pos <> None) /\
    Forall2 (fun pos r => path_at t pos = Some (snd r)) ps recs /\
    length (fst (walk fuel t indent)) = length ps.
Proof.
  intros Hwf Hh.
  destruct (walk_flatten t Hwf fuel indent Hh) as (ps & recs & Hwalk & Hrec & Hsort & Hin).
  exists ps, recs. split; [exact Hwalk|]. split.
  { eapply sorted_NoDup; [exact pos_lt_irrefl|exact Hsort]. }
  split; [exact Hin|]. split.
  - revert Hrec. apply Forall2_impl. now intros pos r [Hp _].
  - rewrite Hwalk. cbn [fst]. rewrite length_map.
    symmetry. eapply Forall2_length. exact Hrec.
Qed.

Lemma one_record_per_path_witness :
  wf_region europe /\ height europe < 5 /\
  exists ps recs,
    walk 5 europe 0 = (map render recs, Ok tt) /\
    NoDup ps /\
    (forall pos, In pos ps <-> path_at europe pos <> None) /\
    Forall2 (fun pos r => path_at europe pos = Some (snd r)) ps recs /\
    length (fst (walk 5 europe 0)) = length ps.
Proof.
  split; [exact wf_europe|]. split; [vm_compute; lia|].
  apply (one_record_per_path europe 5 0); [exact wf_europe|vm_compute; lia].
Defined.

(** One call of [walk] on any dict: the node's own output, then the
    lookup of ["subregions"] and the loop. *)
Lemma walk_dict {fmt : Formatter} (fuel : nat) (fields : list (string * json))
    (indent : nat) :
  walk (S fuel) (JObj fields) indent =
  bind (own_output fields indent, Ok tt)
       (fun _ =>
          subs <- py_get (JObj fields) "subregions" (JList []) ;;
          items <- py_iter subs ;;
          for_each items (fun sub => walk fuel sub (indent + 1))).
Proof.
  cbn [walk]. unfold own_output, py_get at 1.
  destruct (dict_get fields "path") as [p|]; rewrite bind_ret.
  - destruct (truthy p); reflexivity.
  - reflexivity.
Qed.


(** C6: a node without a ["subregions"] key is a node without
    children: the walk prints the node's own line, if its path is
    truthy, and ends normally without visiting anything (the fuel
    left for recursive calls may be 0). *)
Theorem missing_subregions_no_children {fmt : Formatter}
    (fuel : nat) (fields : list (string * json)) (indent : nat) :
  dict_get fields "subregions" = None ->
  walk (S fuel) (JObj fields) indent = (own_output fields indent, Ok tt).
Proof.
  intros Hnone. rewrite walk_dict. unfold py_get. rewrite Hnone, bind_ret.
  cbn [py_iter]. rewrite bind_ret. cbn [for_each bind ret].
  now rewrite app_nil_r.
Qed.

Lemma missing_subregions_no_children_witness :
  dict_get [("path", JStr "europe/malta")] "subregions" = None /\
  walk 1 (JObj [("path", JStr "europe/malta")]) 3 =
  (["      - europe/malta"], Ok tt).
Proof.
  split; [reflexivity|].
  exact (missing_subregions_no_children 0 [("path", JStr "europe/malta")] 3 eq_refl).
Defined.

Lemma indentation_spaces (indent : nat) :
  indentation indent = string_of_list_ascii (repeat " "%char (2 * indent)).
Proof.
  induction indent as [|n IH]; [reflexivity|].
  replace (2 * S n) with (S (S (2 * n))) by lia. simpl repeat.
  cbn [indentation string_of_list_ascii]. now rewrite IH.
Qed.

(** C7: the line of a record is two spaces per level of depth, then
    ["- "], then the path; at depth 2 that is four spaces.  A walk
    over a well-formed region prints exactly these lines, one per
    record, in traversal order, and scenario B prints ["- europe"] and
    then ["  - europe/albania"]. *)
Theorem record_rendering {fmt : Formatter} :
  (forall indent p,
     line indent (JStr p) =
     (string_of_list_ascii (repeat " "%char (2 * indent)) ++ "- " ++ p)%string) /\
  (forall p, line 2 (JStr p) = ("    - " ++ p)%string) /\
  main 4 scenario_b = (["- europe"; "  - europe/albania"], Ok 0%Z) /\
  (forall t fuel indent,
     wf_region t ->
     height t < fuel ->
     exists ps recs,
       walk fuel t indent =
       (map (fun r => (string_of_list_ascii (repeat " "%char (2 * fst r))
                       ++ "- " ++ snd r)%string) recs, Ok tt) /\
       flattens t indent ps recs).
Proof.
  split; [|split; [|split]].
  - intros indent p. unfold line. now rewrite py_str_JStr, indentation_spaces.
  - intros p. unfold line. now rewrite py_str_JStr.
  - unfold main, scenario_b, europe, albania. cbn. unfold line.
    now rewrite !py_str_JStr.
  - intros t fuel indent Hwf Hh.
    destruct (walk_flatten t Hwf fuel indent Hh) as (ps & recs & Hwalk & Hfl).
    exists ps, recs. split; [|exact Hfl]. rewrite Hwalk. f_equal.
    apply map_ext. intros r. unfold render. now rewrite indentation_spaces.
Qed.

Lemma record_rendering_witness :
  wf_region europe /\ height europe < 5 /\
  exists ps recs,
    walk 5 europe 1 =
    (map (fun r => (string_of_list_ascii (repeat " "%char (2 * fst r))
                    ++ "- " ++ snd r)%string) recs, Ok tt) /\
    flattens europe 1 ps recs.
Proof.
  split; [exact wf_europe|]. split; [vm_compute; lia|].
  apply (proj2 (proj2 (proj2 record_rendering)) europe 5 1);
    [exact wf_europe|vm_compute; lia].
Defined.




(** C9: the walk terminates on every finite tree.  A JSON value is a
    finite tree; with more fuel than the value is high the walk ends,
    normally or with an exception, before the fuel does, and any
    larger amount of fuel gives the same run. *)
Theorem walk_terminates {fmt : Formatter} (t : json) (fuel indent : nat) :
  height t < fuel ->
  snd (walk fuel t indent) <> OutOfFuel /\
  forall fuel', fuel <= fuel' -> walk fuel' t indent = walk fuel t indent.
Proof.
  intros Hh. pose proof (walk_fuel_enough fuel t indent Hh) as Hend.
  split; [exact Hend|]. intros fuel' Hle. now apply walk_fuel_mono.
Qed.

Lemma walk_terminates_witness :
  height europe < 5 /\
  snd (walk 5 europe 0) <> OutOfFuel /\
  forall fuel', 5 <= fuel' -> walk fuel' europe 0 = walk 5 europe 0.
Proof.
  split; [vm_compute; lia|].
  apply (walk_terminates europe 5 0). vm_compute; lia.
Defined.

(** C10: [walk] is deterministic and leaves the document alone.  Run
    in any store, it ends in the same store, having only appended its
    lines to stdout; run again on the same region, it appends the
    same lines, ends the same way and again leaves the store as it
    was. *)
Theorem walk_twice_same_output {fmt : Store.Formatter}
    (fuel : nat) (region : Store.value) (indent : nat)
    (h : Store.loc -> Store.object) (out : list string) :
  exists lines r,
    Store.walk fuel region indent (Store.World h out) =
      (Store.World h (out ++ lines), r) /\
    Store.walk fuel region indent (Store.World h (out ++ lines)) =
      (Store.World h ((out ++ lines) ++ lines), r).
Proof.
  destruct (walk_read_only fuel region indent h) as (lines & r & H).
  exists lines, r. split; apply H.
Qed.

(** * Further properties of the script *)

(** ** Indentation *)

Lemma string_app_assoc (a b c : string) : ((a ++ b) ++ c = a ++ (b ++ c))%string.
Proof. induction a as [|x a IH]; simpl; [reflexivity|now rewrite IH]. Qed.

Lemma indentation_add (k n : nat) :
  indentation (k + n) = (indentation k ++ indentation n)%string.
Proof. induction k as [|k IH]; simpl; [reflexivity|now rewrite IH]. Qed.

Lemma line_add {fmt : Formatter} (k indent : nat) (p : json) :
  line (k + indent) p = (indentation k ++ line indent p)%string.
Proof. unfold line. now rewrite indentation_add, string_app_assoc. Qed.

Lemma for_each_map {A} (f : string -> string) (items : list A)
    (body body' : A -> M unit) :
  (forall x, In x items -> body' x = (map f (fst (body x)), snd (body x))) ->
  for_each items body' =
  (map f (fst (for_each items body)), snd (for_each items body)).
Proof.
  induction items as [|x items IH]; intros H; [reflexivity|].
  cbn [for_each]. rewrite (H x (or_introl eq_refl)).
  rewrite IH by (intros y Hy; apply H; now right).
  destruct (body x) as [out [[]|e|]]; cbn [fst snd bind]; try reflexivity.
  destruct (for_each items body) as [out' r]. cbn [fst snd]. now rewrite map_app.
Qed.

(** What the loop of [walk] does with the value of ["subregions"],
    deeper by [k] levels. *)
Lemma loop_shift {fmt : Formatter} (fuel k indent : nat) (fields : list (string * json)) :
  (forall t indent,
     walk fuel t (k + indent) =
     (map (String.append (indentation k)) (fst (walk fuel t indent)),
      snd (walk fuel t indent))) ->
  let loop d :=
    subs <- py_get (JObj fields) "subregions" (JList []) ;;
    items <- py_iter subs ;;
    for_each items (fun sub => walk fuel sub (d + 1)) in
  loop (k + indent) =
  (map (String.append (indentation k)) (fst (loop indent)), snd (loop indent)).
Proof.
  intros IH loop. unfold loop, py_get.
  assert (Hitems : forall items,
            for_each items (fun sub => walk fuel sub (k + indent + 1)) =
            (map (String.append (indentation k))
                 (fst (for_each items (fun sub => walk fuel sub (indent + 1)))),
             snd (for_each items (fun sub => walk fuel sub (indent + 1))))).
  { intros items. apply for_each_map. intros x _.
    rewrite <- Nat.add_assoc. apply IH. }
  assert (Hsubs : forall subs,
            (items <- py_iter subs ;;
             for_each items (fun sub => walk fuel sub (k + indent + 1))) =
            (map (String.append (indentation k))
                 (fst (items <- py_iter subs ;;
                       for_each items (fun sub => walk fuel sub (indent + 1)))),
             snd (items <- py_iter subs ;;
                  for_each items (fun sub => walk fuel sub (indent + 1))))).
  { intros subs. destruct subs; cbn [py_iter]; try reflexivity;
      rewrite !bind_ret; apply Hitems. }
  destruct (dict_get fields "subregions"); rewrite !bind_ret; apply Hsubs.
Qed.

(** X1: the listing of a subtree does not depend on where it hangs.
    Walking any value [k] levels deeper prints the same lines, each
    behind [k] more units of indentation, and ends the same way. *)
Theorem walk_deeper {fmt : Formatter} (fuel : nat) :
  forall t k indent,
    walk fuel t (k + indent) =
    (map (String.append (indentation k)) (fst (walk fuel t indent)),
     snd (walk fuel t indent)).
Proof.
  induction fuel as [|fuel IH]; intros t k indent; [reflexivity|].
  destruct t as [| | | | | |fields]; try reflexivity.
  rewrite !walk_dict, !bind_ok. cbn [fst snd].
  pose proof (loop_shift fuel k indent fields (fun t i => IH t k i)) as Hloop.
  cbv zeta in Hloop. rewrite Hloop. cbn [fst snd]. f_equal.
  rewrite map_app. f_equal. unfold own_output.
  destruct (dict_get fields "path") as [p|]; [|reflexivity].
  destruct (truthy p); [|reflexivity]. cbn [map]. now rewrite line_add.
Qed.

(** ** Lines can be read back *)

Lemma render_inj (d d' : nat) (p p' : string) :
  render (d, p) = render (d', p') -> d = d' /\ p = p'.
Proof.
  unfold render. cbn [fst snd]. revert d'.
  induction d as [|d IH]; intros [|d']; cbn [indentation]; intros H.
  - simpl in H. injection H as ->. now split.
  - simpl in H. discriminate.
  - simpl in H. discriminate.
  - simpl in H. injection H as H. destruct (IH d' H) as [-> ->]. now split.
Qed.

(** X2: a printed line determines its record.  Two lines of string
    paths are equal only if they have the same depth and the same
    path, whatever spaces or dashes the paths contain. *)
Theorem line_determines_record {fmt : Formatter} (d d' : nat) (p p' : string) :
  line d (JStr p) = line d' (JStr p') -> d = d' /\ p = p'.
Proof. rewrite !line_JStr. apply render_inj. Qed.

Lemma line_determines_record_witness :
  line 1 (JStr "- a") = line 1 (JStr "- a") /\ 1 = 1 /\ "- a" = "- a".
Proof.
  split; [reflexivity|].
  apply (line_determines_record 1 1 "- a" "- a"). reflexivity.
Defined.

(** ** Nothing but entries is printed *)

Lemma for_each_Forall {A} (P : string -> Prop) (items : list A) (body : A -> M unit) :
  (forall x, Forall P (fst (body x))) -> Forall P (fst (for_each items body)).
Proof.
  intros H. induction items as [|x items IH]; [constructor|].
  cbn [for_each]. specialize (H x).
  destruct (body x) as [out [[]|e|]]; cbn [fst bind] in *; try exact H.
  destruct (for_each items body) as [out' r]. cbn [fst] in *.
  apply Forall_app. now split.
Qed.

Lemma loop_Forall (P : string -> Prop) (obj : json) (body : json -> M unit) :
  (forall x, Forall P (fst (body x))) ->
  Forall P (fst (subs <- py_get obj "subregions" (JList []) ;;
                 items <- py_iter subs ;;
                 for_each items body)).
Proof.
  intros H.
  assert (Hsubs : forall subs, Forall P (fst (items <- py_iter subs ;; for_each items body))).
  { intros subs. destruct subs; cbn [py_iter]; try (constructor; fail);
      rewrite bind_ret; now apply for_each_Forall. }
  destruct obj; try (constructor; fail). unfold py_get.
  destruct (dict_get fields "subregions"); rewrite bind_ret; apply Hsubs.
Qed.

Lemma entry_from_weaken {fmt : Formatter} (indent indent' : nat) (text : string) :
  indent <= indent' -> entry_from indent' text -> entry_from indent text.
Proof.
  intros Hle (d & p & Hd & Hp & ->). exists d, p. repeat split; [lia|exact Hp].
Qed.

(** X10: whatever the document holds, well-formed or not, and however
    the run ends, every line on stdout is the entry of a truthy path,
    at the depth of the call or deeper.  Nothing else is ever
    printed. *)
Theorem only_entries_printed {fmt : Formatter} :
  (forall fuel t indent, Forall (entry_from indent) (fst (walk fuel t indent))) /\
  (forall fuel data, Forall (entry_from 0) (fst (main fuel data))).
Proof.
  assert (Hwalk : forall fuel t indent,
            Forall (entry_from indent) (fst (walk fuel t indent))).
  { induction fuel as [|fuel IH]; intros t indent; [constructor|].
    destruct t as [| | | | | |fields]; try (constructor; fail).
    rewrite walk_dict, bind_ok. cbn [fst]. apply Forall_app. split.
    - unfold own_output. destruct (dict_get fields "path") as [p|]; [|constructor].
      destruct (truthy p) eqn:Hp; constructor; [|constructor].
      exists indent, p. now repeat split.
    - apply loop_Forall. intros x. specialize (IH x (indent + 1)).
      revert IH. apply Forall_impl. intros text. apply entry_from_weaken. lia. }
  split; [exact Hwalk|].
  intros fuel data. unfold main. destruct (truthy data); cbn [negb]; [|constructor].
  pose proof (loop_Forall (entry_from 0) data (fun region => walk fuel region 0)
                (fun x => Hwalk fuel x 0)) as H.
  destruct (py_get data "subregions" (JList [])) as [out [subs|e|]];
    cbn [bind fst] in *; try exact H.
  destruct (py_iter subs) as [out1 [items|e|]]; cbn [bind fst] in *; try exact H.
  destruct (for_each items _) as [out2 [[]|e|]]; cbn [bind fst ret] in *; try exact H.
  now rewrite !app_nil_r in *.
Qed.

(** ** Exceptions are not caught *)

Lemma for_each_raises {A} (pre post : list A) (bad : A) (body : A -> M unit) (e : exn) :
  (forall c, In c pre -> snd (body c) = Ok tt) ->
  snd (body bad) = Raise e ->
  for_each (pre ++ bad :: post) body =
  (List.concat (map (fun c => fst (body c)) pre) ++ fst (body bad), Raise e).
Proof.
  intros Hpre Hbad. induction pre as [|c pre IH]; cbn [for_each app map List.concat].
  - destruct (body bad) as [out r]. cbn [snd fst] in *. subst r. reflexivity.
  - pose proof (Hpre c (or_introl eq_refl)) as Hc.
    rewrite IH by (intros c' Hc'; apply Hpre; now right).
    destruct (body c) as [out r]. cbn [snd fst] in *. subst r.
    cbn [bind]. now rewrite app_assoc.
Qed.

(** X3: [walk] has no handler, so the first child whose walk raises
    ends the whole walk with that exception.  What the node and the
    children before it printed stays printed, followed by what the
    failing child printed itself; the children after it are not
    visited, whatever they are. *)
Theorem walk_stops_at_first_exception {fmt : Formatter}
    (fuel : nat) (fields : list (string * json)) (indent : nat)
    (pre post : list json) (bad : json) (e : exn) :
  dict_get fields "subregions" = Some (JList (pre ++ bad :: post)) ->
  (forall c, In c pre -> snd (walk fuel c (indent + 1)) = Ok tt) ->
  snd (walk fuel bad (indent + 1)) = Raise e ->
  walk (S fuel) (JObj fields) indent =
  (own_output fields indent ++
   List.concat (map (fun c => fst (walk fuel c (indent + 1))) pre) ++
   fst (walk fuel bad (indent + 1)),
   Raise e).
Proof.
  intros Hsub Hpre Hbad. rewrite walk_dict, bind_ok. unfold py_get.
  rewrite Hsub, bind_ret. cbn [py_iter]. rewrite bind_ret.
  now rewrite (for_each_raises pre post bad _ e Hpre Hbad).
Qed.

Lemma walk_stops_at_first_exception_witness :
  dict_get broken_fields "subregions" =
    Some (JList ([JObj [("path", JStr "r/a")]] ++ JInt 5 :: [JObj [("path", JStr "r/b")]])) /\
  walk 3 (JObj broken_fields) 0 = (["- r"; "  - r/a"], Raise AttributeError).
Proof.
  split; [reflexivity|].
  refine (walk_stops_at_first_exception 2 broken_fields 0
            [JObj [("path", JStr "r/a")]] [JObj [("path", JStr "r/b")]] (JInt 5)
            AttributeError eq_refl _ eq_refl).
  intros c [<-|[]]. reflexivity.
Defined.

(** ** Values of ["subregions"] that are not lists *)

(** X4: what [walk] does with a ["subregions"] that is not a list,
    after printing the node's own line.  A number or a boolean is not
    iterable: [TypeError].  An empty dict or an empty string is an
    empty loop: the node has no children.  A dict with keys or a
    string with characters hands a [str] to the recursive call, which
    fails on [.get]: [AttributeError]. *)
Theorem walk_on_other_subregions {fmt : Formatter}
    (fuel : nat) (fields : list (string * json)) (indent : nat) (v : json) :
  dict_get fields "subregions" = Some v ->
  match v with
  | JNull | JBool _ | JInt _ | JFloat _ =>
      walk (S fuel) (JObj fields) indent = (own_output fields indent, Raise TypeError)
  | JStr EmptyString | JObj [] =>
      walk (S fuel) (JObj fields) indent = (own_output fields indent, Ok tt)
  | JStr (String _ _) | JObj (_ :: _) =>
      walk (S (S fuel)) (JObj fields) indent =
      (own_output fields indent, Raise AttributeError)
  | JList _ => True
  end.
Proof.
  intros Hsub.
  destruct v as [| | | |[|c s]|items|[|kv fs]]; try exact I;
    rewrite walk_dict, bind_ok; unfold py_get; rewrite Hsub, bind_ret;
    cbn; now rewrite app_nil_r.
Qed.

Lemma walk_on_other_subregions_witness :
  dict_get [("path", JStr "a"); ("subregions", JStr "bc")] "subregions" = Some (JStr "bc") /\
  walk 2 (JObj [("path", JStr "a"); ("subregions", JStr "bc")]) 0 =
  (["- a"], Raise AttributeError).
Proof.
  split; [reflexivity|].
  exact (walk_on_other_subregions 0 [("path", JStr "a"); ("subregions", JStr "bc")] 0
           (JStr "bc") eq_refl).
Defined.

(** ** [main] *)

(** X5: a document that is truthy but not an object (a non-empty
    array or string, a non-zero number, [true]) has no [.get]: [main]
    raises [AttributeError] before anything is printed. *)
Theorem main_rejects_non_objects {fmt : Formatter} (fuel : nat) (data : json) :
  truthy data = true ->
  (forall fields, data <> JObj fields) ->
  main fuel data = ([], Raise AttributeError).
Proof.
  intros Ht Hobj. unfold main. rewrite Ht. cbn [negb].
  destruct data; try reflexivity. now destruct (Hobj fields).
Qed.

Lemma main_rejects_non_objects_witness :
  truthy (JList [scenario_b]) = true /\
  main 9 (JList [scenario_b]) = ([], Raise AttributeError).
Proof.
  split; [reflexivity|].
  apply (main_rejects_non_objects 9 (JList [scenario_b])); [reflexivity|discriminate].
Defined.

(** X6: [main] lists the top-level regions one after the other, each
    as [walk] prints it at depth 0.  When the walk of each of them
    ends normally, stdout is the concatenation of their listings in
    the order of ["subregions"], and [main] returns 0. *)
Theorem main_concatenates_walks {fmt : Formatter}
    (fuel : nat) (fields : list (string * json)) :
  fields <> [] ->
  subregions_field_ok (dict_get fields "subregions") ->
  (forall r, In r (subregions_of (JObj fields)) -> snd (walk fuel r 0) = Ok tt) ->
  main fuel (JObj fields) =
  (List.concat (map (fun r => fst (walk fuel r 0)) (subregions_of (JObj fields))),
   Ok 0%Z).
Proof.
  intros Hne Hs Hok. unfold main.
  assert (Ht : truthy (JObj fields) = true) by (now destruct fields).
  rewrite Ht. cbn [negb]. unfold py_get.
  pose proof (for_each_ok (subregions_of (JObj fields))
                (fun r => walk fuel r 0) Hok) as Hloop.
  cbn [subregions_of] in *.
  destruct (dict_get fields "subregions") as [[| | | | |items|]|];
    simpl in Hs; try easy; rewrite bind_ret; cbn [py_iter]; rewrite bind_ret;
    rewrite Hloop; cbn [bind ret]; now rewrite app_nil_r.
Qed.

Lemma main_concatenates_walks_witness :
  [("subregions", JList [europe; scenario_d])] <> [] /\
  main 7 (JObj [("subregions", JList [europe; scenario_d])]) =
  (["- europe"; "  - europe/albania";
    "- asia"; "  - asia/japan"; "    - asia/japan/kanto"], Ok 0%Z).
Proof.
  split; [discriminate|].
  refine (main_concatenates_walks 7 [("subregions", JList [europe; scenario_d])] _ I _).
  - discriminate.
  - intros r [<-|[<-|[]]]; reflexivity.
Defined.

(** ** The script as a whole *)

Lemma main_result_cases {fmt : Formatter} (fuel : nat) (data : json) (z : Z) :
  snd (main fuel data) = Ok z ->
  (z = 1%Z /\ truthy data = false) \/
  (z = 0%Z /\ exists fields, data = JObj fields /\ fields <> []).
Proof.
  unfold main. destruct (truthy data) eqn:Ht; cbn [negb].
  - intros H. right.
    destruct data as [| | | | | |fields]; try discriminate H.
    assert (Hne : fields <> []) by (intros ->; discriminate Ht).
    split; [|now exists fields].
    match type of H with snd (bind ?m _) = _ => destruct m as [out [r|e|]] end;
      try discriminate.
    rewrite bind_ok in H. cbn [snd] in H.
    match type of H with snd (bind ?m _) = _ => destruct m as [out1 [its|e|]] end;
      try discriminate.
    rewrite bind_ok in H. cbn [snd] in H.
    match type of H with snd (bind ?m _) = _ =>
      destruct (bind_const_outcome m 0%Z) as [E|E] end.
    + rewrite E in H. now injection H.
    + now apply E in H.
  - intros H. left. cbn in H. injection H as <-. now split.
Qed.

(** X7: the script as the shell sees it.  Its exit status is 0 or 1.
    After a failed fetch it writes the one line
    ["Error fetching index: ..."] to stderr, nothing to stdout, and
    ends with status 1.  Status 0 means that a non-empty object was
    fetched and that nothing went to stderr. *)
Theorem script_exit_status {fmt : Formatter} (fuel : nat) (attempt : fetched) :
  (exit_status (run_result (script fuel attempt)) = 0%Z \/
   exit_status (run_result (script fuel attempt)) = 1%Z) /\
  (forall message,
     attempt = Failed message ->
     script fuel attempt =
       Run ["Error fetching index: " ++ message]%string [] (Ok 1%Z) /\
     exit_status (run_result (script fuel attempt)) = 1%Z) /\
  (exit_status (run_result (script fuel attempt)) = 0%Z ->
   exists fields,
     attempt = Loaded (JObj fields) /\ fields <> [] /\
     run_stderr (script fuel attempt) = []).
Proof.
  assert (Hrun : forall doc,
            script fuel (Loaded doc) =
            Run [] (fst (main fuel doc)) (snd (main fuel doc))).
  { intros doc. unfold script, fetch_index. now destruct (main fuel doc). }
  destruct attempt as [doc|message].
  - rewrite Hrun. cbn [run_result run_stderr].
    destruct (snd (main fuel doc)) as [z|e|] eqn:Hres; cbn [exit_status].
    + destruct (main_result_cases fuel doc z Hres)
        as [[-> Ht]|[-> (fields & -> & Hne)]].
      * split; [now right|]. split; [discriminate|discriminate].
      * split; [now left|]. split; [discriminate|]. intros _. now exists fields.
    + split; [now right|]. split; [discriminate|discriminate].
    + split; [now right|]. split; [discriminate|discriminate].
  - split; [now right|]. split.
    + intros m [= <-]. split; reflexivity.
    + cbn. discriminate.
Qed.

Lemma script_exit_status_witness :
  Failed "timed out" = Failed "timed out" /\
  script 9 (Failed "timed out") =
    Run ["Error fetching index: timed out"] [] (Ok 1%Z) /\
  exit_status (run_result (script 9 (Failed "timed out"))) = 1%Z.
Proof.
  split; [reflexivity|].
  exact (proj1 (proj2 (script_exit_status 9 (Failed "timed out"))) "timed out" eq_refl).
Defined.

(** ** Shared objects *)

Lemma shared_tree_represented :
  Store.represents shared_store (Store.VRef 0) shared_tree.
Proof.
  assert (Hleaf : Store.represents shared_store (Store.VRef 2) (JObj [("path", JStr "x")])).
  { eapply Store.rep_dict; [reflexivity|]. constructor; [|constructor].
    split; [reflexivity|apply Store.rep_str]. }
  eapply Store.rep_dict; [reflexivity|]. constructor; [|constructor].
  split; [reflexivity|]. cbn [snd].
  eapply Store.rep_list; [reflexivity|]. repeat constructor; exact Hleaf.
Qed.

(** X8: the store and the JSON value tell the same story.  When the
    objects below a region form a finite tree, shared objects
    included, the walk over the store prints exactly the lines of the
    walk over the JSON value it stands for, ends the same way, and
    leaves every object as it was; an object that is reachable twice
    is listed twice. *)
Theorem store_walk_is_json_walk {fmt : Formatter} {sfmt : Store.Formatter}
    (fuel : nat) (v : Store.value) (t : json) (indent : nat)
    (h : Store.loc -> Store.object) (out : list string) :
  (forall h v t, Store.represents h v t -> Store.py_str h v = py_str t) ->
  Store.represents h v t ->
  span t < fuel ->
  Store.walk fuel v indent (Store.World h out) =
  (Store.World h (out ++ fst (walk fuel t indent)), snd (walk fuel t indent)).
Proof.
  intros Hagree Hrep Hspan. exact (walk_refines Hagree fuel v t indent h Hrep Hspan out).
Qed.

Lemma store_walk_is_json_walk_witness :
  Store.represents shared_store (Store.VRef 0) shared_tree /\
  span shared_tree < 13 /\
  @Store.walk Store.plain_formatter 13 (Store.VRef 0) 0 (Store.World shared_store []) =
  (Store.World shared_store ["  - x"; "  - x"], Ok tt).
Proof.
  split; [exact shared_tree_represented|]. split; [vm_compute; lia|].
  refine (@store_walk_is_json_walk plain_formatter Store.plain_formatter
            13 (Store.VRef 0) shared_tree 0 shared_store []
            plain_formatters_agree shared_tree_represented _).
  vm_compute. lia.
Defined.

(** ** How deep the recursion goes *)

Lemma node_at_child (t c : json) (i : nat) (q : position) :
  nth_error (subregions_of t) i = Some c -> node_at t (i :: q) = node_at c q.
Proof. simpl. now intros ->. Qed.

Lemma children_depth {fmt : Formatter} (t : json) (fuel d : nat) :
  forall cs pre,
    subregions_of t = pre ++ cs ->
    (forall c, In c cs ->
       (snd (walk fuel c d) = Ok tt /\
        forall pos n, node_at c pos = Some n -> length pos < fuel) \/
       (snd (walk fuel c d) = OutOfFuel /\
        exists pos n, node_at c pos = Some n /\ fuel <= length pos)) ->
    (snd (for_each cs (fun sub => walk fuel sub d)) = Ok tt /\
     forall i q n, length pre <= i -> node_at t (i :: q) = Some n -> length q < fuel) \/
    (snd (for_each cs (fun sub => walk fuel sub d)) = OutOfFuel /\
     exists i q n, node_at t (i :: q) = Some n /\ fuel <= length q).
Proof.
  induction cs as [|c cs IH]; intros pre Hsub Hcs.
  - left. split; [reflexivity|]. intros i q n Hi Hn. exfalso.
    simpl in Hn. rewrite app_nil_r in Hsub. rewrite Hsub in Hn.
    apply nth_error_None in Hi. now rewrite Hi in Hn.
  - assert (Hnth : nth_error (subregions_of t) (length pre) = Some c).
    { rewrite Hsub. now rewrite nth_error_app2, Nat.sub_diag by lia. }
    cbn [for_each].
    destruct (Hcs c (or_introl eq_refl)) as [[Hok Hc]|[Hout (q & n & Hn & Hq)]].
    + destruct (IH (pre ++ [c])) as [[Hok' Hrest]|[Hout' Hdeep]].
      { now rewrite <- app_assoc. }
      { intros c' Hc'. apply Hcs. now right. }
      * left. split.
        -- destruct (walk fuel c d) as [o r]. cbn [snd] in Hok. subst r.
           rewrite bind_ok. exact Hok'.
        -- intros i q n Hi Hn.
           destruct (Nat.eq_dec i (length pre)) as [->|Hne].
           ++ rewrite (node_at_child t c _ q Hnth) in Hn. now apply Hc in Hn.
           ++ apply (Hrest i q n); [|exact Hn]. rewrite length_app. simpl. lia.
      * right. split; [|exact Hdeep].
        destruct (walk fuel c d) as [o r]. cbn [snd] in Hok. subst r.
        rewrite bind_ok. exact Hout'.
    + right. split.
      * destruct (walk fuel c d) as [o r]. cbn [snd] in Hout. now subst r.
      * exists (length pre), q, n. split; [|exact Hq].
        now rewrite (node_at_child t c _ q Hnth).
Qed.

(** X9: the walk recurses exactly as deep as the tree of regions.
    With a bound [fuel] on the depth of the recursion, the walk over
    a well-formed region ends normally when every node lies fewer
    than [fuel] levels below it, and otherwise stops at the bound,
    because some node lies [fuel] levels down or more. *)
Theorem walk_recursion_depth {fmt : Formatter} (t : json) :
  wf_region t ->
  forall fuel indent,
    (snd (walk fuel t indent) = Ok tt /\
     forall pos n, node_at t pos = Some n -> length pos < fuel) \/
    (snd (walk fuel t indent) = OutOfFuel /\
     exists pos n, node_at t pos = Some n /\ fuel <= length pos).
Proof.
  induction 1 as [fields Hp Hs Hc IH]. intros [|fuel] indent.
  - right. split; [reflexivity|]. exists [], (JObj fields). split; [reflexivity|].
    simpl. lia.
  - rewrite (walk_node _ _ _ Hp Hs), bind_ok. cbn [snd].
    destruct (children_depth (JObj fields) fuel (indent + 1)
                (subregions_of (JObj fields)) [] eq_refl)
      as [[Hok Hall]|[Hout (i & q & n & Hn & Hq)]].
    { intros c Hc'. now apply IH. }
    + left. split; [exact Hok|]. intros [|i q] n Hn; [simpl; lia|].
      specialize (Hall i q n (Nat.le_0_l _) Hn). simpl. lia.
    + right. split; [exact Hout|]. exists (i :: q), n. split; [exact Hn|].
      simpl. lia.
Qed.

Lemma walk_recursion_depth_witness :
  wf_region europe /\
  ((snd (walk 2 europe 0) = Ok tt /\
    forall pos n, node_at europe pos = Some n -> length pos < 2) \/
   (snd (walk 2 europe 0) = OutOfFuel /\
    exists pos n, node_at europe pos = Some n /\ 2 <= length pos)).
Proof.
  split; [exact wf_europe|].
  exact (walk_recursion_depth europe wf_europe 2 0).
Defined.

(** ** Keys that are not read *)

Lemma for_each_same {A} (items items' : list A) (R : A -> A -> Prop)
    (body : A -> M unit) :
  (forall x y, R x y -> body x = body y) ->
  Forall2 R items items' ->
  for_each items body = for_each items' body.
Proof.
  intros Hbody. induction 1 as [|x y items items' Hxy _ IH]; [reflexivity|].
  cbn [for_each]. now rewrite (Hbody x y Hxy), IH.
Qed.

(** X11: [walk] reads the keys ["path"] and ["subregions"] and no
    other.  Two documents that agree on these two keys at every
    region are listed alike: same lines, same outcome, whatever else
    the dicts hold and in whatever order their keys come. *)
Theorem walk_reads_two_keys {fmt : Formatter} (fuel : nat) :
  forall t t' indent,
    same_listing t t' -> walk fuel t indent = walk fuel t' indent.
Proof.
  induction fuel as [|fuel IH]; intros t t' indent Hsame; [reflexivity|].
  inversion Hsame as [|fields fields' Hp Hs|fields fields' items items' Hp Hs Hs' Hitems];
    subst; [reflexivity| |].
  - rewrite !walk_dict. unfold own_output, py_get. now rewrite Hp, Hs.
  - rewrite !walk_dict. unfold own_output, py_get. rewrite Hp, Hs, Hs', !bind_ret.
    cbn [py_iter]. rewrite !bind_ret.
    rewrite (for_each_same items items' same_listing
               (fun sub => walk fuel sub (indent + 1))); [reflexivity| |exact Hitems].
    intros x y Hxy. now apply IH.
Qed.

Lemma europe_full_same : same_listing europe_full europe_bare.
Proof.
  eapply same_node; [reflexivity|reflexivity|reflexivity|].
  constructor; [|constructor]. now apply same_leaf.
Qed.

Lemma walk_reads_two_keys_witness :
  same_listing europe_full europe_bare /\
  walk 4 europe_full 0 = walk 4 europe_bare 0.
Proof.
  split; [exact europe_full_same|].
  exact (walk_reads_two_keys 4 europe_full europe_bare 0 europe_full_same).
Defined.
